(** * QTRACK: the IndexedDB persistence layer (src/QTRACK/database.js)

    A shallow embedding of the class [DatabaseManager] and of the part of
    the host environment it talks to (IndexedDB object stores, the
    SubtleCrypto SHA-256 digest, TextEncoder, the console), followed by the
    properties of the persistence layer.

    Conventions of the embedding:
    - a JavaScript string is the list of its UTF-16 code units ([jsstring]);
      property names, which the source only writes as ASCII literals, are
      Rocq strings;
    - a JavaScript number is modelled by an integer ([VNum z]); NaN, the
      infinities and fractions are outside the model;
    - a record passed by the caller is an object of the heap, addressed by a
      location, whose properties hold primitive values;
    - an [async] method is a state transformer returning an [outcome]:
      the promise resolves ([Return]), rejects ([Throw]) or never settles
      ([Pending]). *)

From Stdlib Require Import ZArith NArith List String Ascii Bool Lia.
From Stdlib Require Import DecimalString Sorted Permutation.
From stdpp Require Import base option list gmap strings.

Local Open Scope N_scope.

(** ** JavaScript strings *)

Definition jsstring := list N.

(** The code units of an ASCII literal. *)
Definition js (s : string) : jsstring :=
  map (fun a => N_of_ascii a) (list_ascii_of_string s).

(** [Array.prototype.join] on an array of strings. *)
Fixpoint join (sep : jsstring) (l : list jsstring) : jsstring :=
  match l with
  | [] => []
  | [x] => x
  | x :: rest => x ++ sep ++ join sep rest
  end.

(** ** SHA-256 (the host's [crypto.subtle.digest('SHA-256', data)])

    Words are 32-bit values carried in [N], with the wrap-around written
    out; bytes are 8-bit values carried in [N]. *)

Module SHA256.

Definition mask32 : N := 0xFFFFFFFF.
Definition w32 (x : N) : N := N.land x mask32.
Definition add32 (a b : N) : N := w32 (a + b).
Definition rotr (n x : N) : N :=
  N.lor (N.shiftr x n) (w32 (N.shiftl x (32 - n))).
Definition not32 (x : N) : N := N.lxor x mask32.

Definition Ch (x y z : N) : N := N.lxor (N.land x y) (N.land (not32 x) z).
Definition Maj (x y z : N) : N :=
  N.lxor (N.lxor (N.land x y) (N.land x z)) (N.land y z).
Definition Sigma0 (x : N) : N := N.lxor (N.lxor (rotr 2 x) (rotr 13 x)) (rotr 22 x).
Definition Sigma1 (x : N) : N := N.lxor (N.lxor (rotr 6 x) (rotr 11 x)) (rotr 25 x).
Definition sigma0 (x : N) : N := N.lxor (N.lxor (rotr 7 x) (rotr 18 x)) (N.shiftr x 3).
Definition sigma1 (x : N) : N := N.lxor (N.lxor (rotr 17 x) (rotr 19 x)) (N.shiftr x 10).

(** The round constants are the first 32 bits of the fractional parts of
    the cube roots of the first 64 primes, the initial hash value those of
    the square roots of the first 8 primes. *)
Definition is_prime (n : nat) : bool :=
  forallb (fun d => negb (Nat.eqb (Nat.modulo n d) 0)) (seq 2 (n - 2)).

Definition primes : list N := map N.of_nat (filter is_prime (seq 2 310)).

(** The integer cube root, one bit after the other from bit [b - 1] down. *)
Fixpoint cube_root_bits (b : nat) (n r : N) : N :=
  match b with
  | O => r
  | S b' =>
      let c := r + N.shiftl 1 (N.of_nat b') in
      cube_root_bits b' n (if c * c * c <=? n then c else r)
  end.

Definition frac_cube_root (p : N) : N := w32 (cube_root_bits 36 (N.shiftl p 96) 0).
Definition frac_square_root (p : N) : N := w32 (N.sqrt (N.shiftl p 64)).

Definition K : list N := map frac_cube_root primes.

(** The eight working variables. *)
Record regs := Regs { ra : N; rb : N; rc : N; rd : N; re : N; rf : N; rg : N; rh : N }.

Definition H0 : regs :=
  let h i := frac_square_root (nth i primes 0) in
  Regs (h 0%nat) (h 1%nat) (h 2%nat) (h 3%nat) (h 4%nat) (h 5%nat) (h 6%nat) (h 7%nat).

(** Padding: the byte 0x80, zeros up to 56 modulo 64, the bit length on
    eight bytes, most significant first. *)
Definition be_bytes (n : nat) (x : N) : list N :=
  map (fun i => N.land (N.shiftr x (8 * N.of_nat i)) 0xFF) (rev (seq 0 n)).

Definition pad (msg : list N) : list N :=
  let len := N.of_nat (length msg) in
  let zeros := N.to_nat ((64 + 55 - len mod 64) mod 64) in
  msg ++ [0x80] ++ repeat 0 zeros ++ be_bytes 8 (8 * len).

Fixpoint words_of (bs : list N) : list N :=
  match bs with
  | b0 :: b1 :: b2 :: b3 :: rest =>
      (N.shiftl b0 24 + N.shiftl b1 16 + N.shiftl b2 8 + b3) :: words_of rest
  | _ => []
  end.

(** The message schedule, most recent word first. *)
Fixpoint extend (n : nat) (ws : list N) : list N :=
  match n with
  | O => ws
  | S n' =>
      let g i := nth i ws 0 in
      let w := add32 (add32 (add32 (sigma1 (g 1%nat)) (g 6%nat)) (sigma0 (g 14%nat)))
                     (g 15%nat) in
      extend n' (w :: ws)
  end.

Definition schedule (block : list N) : list N :=
  rev (extend 48 (rev (words_of block))).

Definition round (r : regs) (kw : N * N) : regs :=
  let t1 := add32 (add32 (add32 (add32 (rh r) (Sigma1 (re r)))
                                (Ch (re r) (rf r) (rg r))) (fst kw)) (snd kw) in
  let t2 := add32 (Sigma0 (ra r)) (Maj (ra r) (rb r) (rc r)) in
  Regs (add32 t1 t2) (ra r) (rb r) (rc r) (add32 (rd r) t1) (re r) (rf r) (rg r).

Definition compress (h : regs) (block : list N) : regs :=
  let r := fold_left round (combine K (schedule block)) h in
  Regs (add32 (ra h) (ra r)) (add32 (rb h) (rb r)) (add32 (rc h) (rc r))
       (add32 (rd h) (rd r)) (add32 (re h) (re r)) (add32 (rf h) (rf r))
       (add32 (rg h) (rg r)) (add32 (rh h) (rh r)).

Fixpoint blocks (n : nat) (bs : list N) (h : regs) : regs :=
  match n with
  | O => h
  | S n' => blocks n' (skipn 64 bs) (compress h (firstn 64 bs))
  end.

Definition word_bytes (w : N) : list N :=
  [ N.land (N.shiftr w 24) 0xFF; N.land (N.shiftr w 16) 0xFF;
    N.land (N.shiftr w 8) 0xFF; N.land w 0xFF ].

Definition digest (msg : list N) : list N :=
  let p := pad msg in
  let h := blocks (length p / 64) p H0 in
  word_bytes (ra h) ++ word_bytes (rb h) ++ word_bytes (rc h) ++ word_bytes (rd h)
  ++ word_bytes (re h) ++ word_bytes (rf h) ++ word_bytes (rg h) ++ word_bytes (rh h).

End SHA256.

(** ** [TextEncoder.encode]: UTF-16 code units to UTF-8 bytes

    A surrogate pair gives the four bytes of its code point; a lone
    surrogate is replaced by U+FFFD, as the encoder does. *)

Definition is_high_surrogate (c : N) : bool := (0xD800 <=? c) && (c <=? 0xDBFF).
Definition is_low_surrogate (c : N) : bool := (0xDC00 <=? c) && (c <=? 0xDFFF).

Definition utf8_of_code_point (cp : N) : list N :=
  if cp <? 0x80 then [cp]
  else if cp <? 0x800 then [0xC0 + cp / 64; 0x80 + cp mod 64]
  else if cp <? 0x10000 then
    [0xE0 + cp / 4096; 0x80 + (cp / 64) mod 64; 0x80 + cp mod 64]
  else [0xF0 + cp / 262144; 0x80 + (cp / 4096) mod 64;
        0x80 + (cp / 64) mod 64; 0x80 + cp mod 64].

Fixpoint TextEncoder_encode (s : jsstring) : list N :=
  match s with
  | [] => []
  | c :: rest =>
      if is_high_surrogate c then
        match rest with
        | d :: rest' =>
            if is_low_surrogate d then
              utf8_of_code_point (0x10000 + (c - 0xD800) * 1024 + (d - 0xDC00))
              ++ TextEncoder_encode rest'
            else utf8_of_code_point 0xFFFD ++ TextEncoder_encode rest
        | [] => utf8_of_code_point 0xFFFD
        end
      else if is_low_surrogate c then utf8_of_code_point 0xFFFD ++ TextEncoder_encode rest
      else utf8_of_code_point c ++ TextEncoder_encode rest
  end.

(** ** [hashPassword] *)

Definition hex_digit (d : N) : N := if d <? 10 then 48 + d else 87 + d.

(** [b.toString(16)] for an element [b] of a [Uint8Array]. *)
Definition toString16 (b : N) : jsstring :=
  if b <? 16 then [hex_digit b] else [hex_digit (b / 16); hex_digit (b mod 16)].

(** [s.padStart(2, '0')]. *)
Definition padStart2 (s : jsstring) : jsstring :=
  match s with
  | [] => [48; 48]
  | [c] => [48; c]
  | _ => s
  end.

Definition hashPassword (password : jsstring) : jsstring :=
  let data := TextEncoder_encode password in
  let hashArray := SHA256.digest data in
  concat (map (fun b => padStart2 (toString16 b)) hashArray).

(** ** JavaScript values and objects *)

Inductive jsval :=
| VUndefined
| VNull
| VBool (b : bool)
| VNum (z : Z)
| VStr (s : jsstring).

#[global] Instance jsval_eq_dec : EqDecision jsval.
Proof. solve_decision. Defined.

(** An object whose properties hold primitive values: the own properties
    of an object literal. Reading a property that is not there yields
    [undefined], as JavaScript does for every name that [Object.prototype]
    does not define; the column names and the key paths of the source are
    all such names. *)
Abbreviation jsobj := (gmap string jsval).

Definition get_prop (o : jsobj) (p : string) : jsval :=
  match o !! p with
  | Some v => v
  | None => VUndefined
  end.

Inductive jstype := TUndefined | TObject | TBoolean | TNumber | TString.

Definition typeof (v : jsval) : jstype :=
  match v with
  | VUndefined => TUndefined
  | VNull => TObject
  | VBool _ => TBoolean
  | VNum _ => TNumber
  | VStr _ => TString
  end.

(** ToBoolean. *)
Definition truthy (v : jsval) : bool :=
  match v with
  | VUndefined | VNull => false
  | VBool b => b
  | VNum z => negb (Z.eqb z 0)
  | VStr s => match s with [] => false | _ => true end
  end.

(** ToString. The numbers of the model are integers, written with all
    their digits, as JavaScript writes the integers of magnitude below
    10^21. *)
Definition ToString (v : jsval) : jsstring :=
  match v with
  | VUndefined => js "undefined"
  | VNull => js "null"
  | VBool true => js "true"
  | VBool false => js "false"
  | VNum z => js (NilZero.string_of_int (Z.to_int z))
  | VStr s => s
  end.

(** [Array.prototype.includes] (SameValueZero, which on these values is
    equality). *)
Definition includes (l : list jsval) (v : jsval) : bool :=
  existsb (fun x => bool_decide (x = v)) l.

(** [Array.prototype.join] on an array of values: [undefined] and [null]
    elements give the empty string. *)
Definition join_values (sep : jsstring) (l : list jsval) : jsstring :=
  join sep (map (fun v => match v with
                          | VUndefined | VNull => []
                          | _ => ToString v
                          end) l).

(** Exceptions. The message of an exception raised by the engine or by the
    host is engine-defined and is not modelled; a DOMException is known by
    its name. *)
Inductive exn :=
| Error (message : jsstring)
| TypeError
| DOMException (name : string).

#[global] Instance exn_eq_dec : EqDecision exn.
Proof. solve_decision. Defined.

(** ** Regular expressions (the fragment the source uses)

    Matching is by derivatives, on code units (the source's expression has
    no [u] flag). *)

Module Regex.

Inductive regex :=
| Void
| Eps
| Class (p : N -> bool)
| Cat (r1 r2 : regex)
| Alt (r1 r2 : regex)
| Star (r : regex).

Definition Plus (r : regex) : regex := Cat r (Star r).
Definition Chr (c : N) : regex := Class (N.eqb c).

Fixpoint nullable (r : regex) : bool :=
  match r with
  | Void => false
  | Eps => true
  | Class _ => false
  | Cat r1 r2 => nullable r1 && nullable r2
  | Alt r1 r2 => nullable r1 || nullable r2
  | Star _ => true
  end.

Fixpoint deriv (c : N) (r : regex) : regex :=
  match r with
  | Void => Void
  | Eps => Void
  | Class p => if p c then Eps else Void
  | Cat r1 r2 =>
      if nullable r1 then Alt (Cat (deriv c r1) r2) (deriv c r2)
      else Cat (deriv c r1) r2
  | Alt r1 r2 => Alt (deriv c r1) (deriv c r2)
  | Star r1 => Cat (deriv c r1) (Star r1)
  end.

(** [/^r$/.test(s)]. *)
Fixpoint test (r : regex) (s : jsstring) : bool :=
  match s with
  | [] => nullable r
  | c :: s' => test (deriv c r) s'
  end.

(** The class [\s]: WhiteSpace and LineTerminator code units. *)
Definition is_space (c : N) : bool :=
  (c =? 9) || (c =? 10) || (c =? 11) || (c =? 12) || (c =? 13) || (c =? 32)
  || (c =? 0xA0) || (c =? 0x1680) || ((0x2000 <=? c) && (c <=? 0x200A))
  || (c =? 0x2028) || (c =? 0x2029) || (c =? 0x202F) || (c =? 0x205F)
  || (c =? 0x3000) || (c =? 0xFEFF).

(** The class [[^\s@]]. *)
Definition not_space_at (c : N) : bool := negb (is_space c) && negb (c =? 64).

End Regex.

(** [const emailRegex = /^[^\s@]+@[^\s@]+\.[^\s@]+$/]. *)
Definition emailRegex : Regex.regex :=
  Regex.Cat (Regex.Plus (Regex.Class Regex.not_space_at))
    (Regex.Cat (Regex.Chr 64)
       (Regex.Cat (Regex.Plus (Regex.Class Regex.not_space_at))
          (Regex.Cat (Regex.Chr 46) (Regex.Plus (Regex.Class Regex.not_space_at))))).

(** ** The host's IndexedDB

    Only what the source uses: object stores with in-line keys (a key
    path), an optional key generator, secondary indexes, transactions on a
    connection. The algorithms follow the Indexed Database API. *)

Inductive mode := readonly | readwrite | versionchange.

Record Index := {
  ix_name : string;
  ix_keyPath : string;
  ix_unique : bool
}.

Record ObjectStore := {
  os_name : string;
  os_keyPath : string;
  os_autoIncrement : bool;
  os_generator : Z;                    (* the key generator's current number *)
  os_indexes : list Index;
  os_records : list (jsval * jsobj)    (* by ascending key *)
}.

Record IDBDatabase := {
  objectStores : list ObjectStore;
  upgrading : bool;                    (* an upgrade transaction is live *)
  closed : bool                        (* the close pending flag *)
}.

(** [db.objectStoreNames] is a sorted list: the names of the stores in
    ascending order of their code units, whatever the order in which the
    stores were created. *)
Fixpoint insert_name (n : string) (l : list string) : list string :=
  match l with
  | [] => [n]
  | m :: rest => if String.leb n m then n :: l else m :: insert_name n rest
  end.

Definition sort_names (l : list string) : list string := fold_right insert_name [] l.

Definition name_le (a b : string) : Prop := String.leb a b = true.

Definition objectStoreNames (d : IDBDatabase) : list string :=
  sort_names (map os_name (objectStores d)).

Definition contains (names : list string) (n : string) : bool :=
  existsb (String.eqb n) names.

Definition find_store (d : IDBDatabase) (n : string) : option ObjectStore :=
  find (fun st => String.eqb (os_name st) n) (objectStores d).

Definition replace_store (d : IDBDatabase) (st : ObjectStore) : IDBDatabase :=
  {| objectStores :=
       map (fun s => if String.eqb (os_name s) (os_name st) then st else s)
           (objectStores d);
     upgrading := upgrading d;
     closed := closed d |}.

(** Keys: numbers sort before strings; strings sort by code units. *)
Definition is_valid_key (v : jsval) : bool :=
  match v with
  | VNum _ | VStr _ => true
  | _ => false
  end.

Fixpoint jsstring_ltb (a b : jsstring) : bool :=
  match a, b with
  | [], [] => false
  | [], _ :: _ => true
  | _ :: _, [] => false
  | x :: a', y :: b' => (x <? y) || ((x =? y) && jsstring_ltb a' b')
  end.

Definition key_ltb (a b : jsval) : bool :=
  match a, b with
  | VNum x, VNum y => Z.ltb x y
  | VNum _, VStr _ => true
  | VStr x, VStr y => jsstring_ltb x y
  | _, _ => false
  end.

Definition key_eqb (a b : jsval) : bool := bool_decide (a = b).

(** Extracting a key from a value using a key path. *)
Inductive extracted := KFailure | KInvalid | KKey (k : jsval).

Definition extract_key (value : jsobj) (keyPath : string) : extracted :=
  match value !! keyPath with
  | None | Some VUndefined => KFailure
  | Some v => if is_valid_key v then KKey v else KInvalid
  end.

Fixpoint insert_record (k : jsval) (v : jsobj) (l : list (jsval * jsobj))
  : list (jsval * jsobj) :=
  match l with
  | [] => [(k, v)]
  | (k', v') :: rest =>
      if key_ltb k k' then (k, v) :: l else (k', v') :: insert_record k v rest
  end.

Definition has_key (k : jsval) (l : list (jsval * jsobj)) : bool :=
  existsb (fun r => key_eqb (fst r) k) l.

(** A unique index refuses a record whose index key is already there. *)
Definition violates_index (ix : Index) (value : jsobj) (l : list (jsval * jsobj)) : bool :=
  ix_unique ix &&
  match extract_key value (ix_keyPath ix) with
  | KKey k =>
      existsb (fun r => match extract_key (snd r) (ix_keyPath ix) with
                        | KKey k' => key_eqb k' k
                        | _ => false
                        end) l
  | _ => false
  end.

Definition max_generator : Z := 9007199254740992.   (* 2^53 *)

(** Storing a record with no overwrite: the key and the unique indexes are
    checked, a failed request leaves the store as it was (key generator
    included). *)
Definition store_record (st : ObjectStore) (k : jsval) (value : jsobj) (gen : Z)
  : exn + (jsval * ObjectStore) :=
  if has_key k (os_records st) then inl (DOMException "ConstraintError")
  else if existsb (fun ix => violates_index ix value (os_records st)) (os_indexes st)
  then inl (DOMException "ConstraintError")
  else inr (k, {| os_name := os_name st;
                   os_keyPath := os_keyPath st;
                   os_autoIncrement := os_autoIncrement st;
                   os_generator := gen;
                   os_indexes := os_indexes st;
                   os_records := insert_record k value (os_records st) |}).

(** [store.add(value)] in a transaction of mode [m]; the result is the
    request's result (the record's key) or the exception or request error. *)
Definition idb_add (m : mode) (st : ObjectStore) (value : jsobj)
  : exn + (jsval * ObjectStore) :=
  match m with
  | readonly => inl (DOMException "ReadOnlyError")
  | _ =>
      match extract_key value (os_keyPath st) with
      | KInvalid => inl (DOMException "DataError")
      | KKey k =>
          let gen :=
            match k with
            | VNum z => if os_autoIncrement st && (os_generator st <=? z)%Z
                        then (Z.min z max_generator + 1)%Z else os_generator st
            | _ => os_generator st
            end in
          store_record st k value gen
      | KFailure =>
          if os_autoIncrement st then
            if (max_generator <? os_generator st)%Z
            then inl (DOMException "ConstraintError")
            else let k := VNum (os_generator st) in
                 store_record st k (<[os_keyPath st := k]> value)
                              (os_generator st + 1)%Z
          else inl (DOMException "DataError")
      end
  end.

(** [store.getAll()]. *)
Definition idb_getAll (st : ObjectStore) : list jsobj := map snd (os_records st).

(** [store.index(name).get(key)]: the first record of the index with that
    key, or [undefined] ([None]). *)
Definition idb_index_get (st : ObjectStore) (name : string) (k : jsval)
  : exn + option jsobj :=
  match find (fun ix => String.eqb (ix_name ix) name) (os_indexes st) with
  | None => inl (DOMException "NotFoundError")
  | Some ix =>
      if is_valid_key k then
        inr (snd <$> find (fun r => match extract_key (snd r) (ix_keyPath ix) with
                                    | KKey k' => key_eqb k' k
                                    | _ => false
                                    end) (os_records st))
      else inl (DOMException "DataError")
  end.

(** [db.transaction(storeNames, mode)]. *)
Definition idb_transaction (d : IDBDatabase) (storeNames : list string) (m : mode)
  : exn + unit :=
  if upgrading d then inl (DOMException "InvalidStateError")
  else if closed d then inl (DOMException "InvalidStateError")
  else if negb (forallb (contains (objectStoreNames d)) storeNames)
  then inl (DOMException "NotFoundError")
  else match storeNames with
       | [] => inl (DOMException "InvalidAccessError")
       | _ => match m with
              | versionchange => inl TypeError
              | _ => inr ()
              end
       end.

(** [db.createObjectStore(name, { keyPath, autoIncrement })]; a missing
    [autoIncrement] option is [false]. *)
Definition idb_createObjectStore (d : IDBDatabase) (name keyPath : string)
    (autoIncrement : bool) : exn + (ObjectStore * IDBDatabase) :=
  if negb (upgrading d) then inl (DOMException "InvalidStateError")
  else if contains (objectStoreNames d) name then inl (DOMException "ConstraintError")
  else let st := {| os_name := name; os_keyPath := keyPath;
                    os_autoIncrement := autoIncrement; os_generator := 1;
                    os_indexes := []; os_records := [] |} in
       inr (st, {| objectStores := objectStores d ++ [st];
                   upgrading := upgrading d; closed := closed d |}).

(** [objectStore.createIndex(name, keyPath, { unique })] on a store that
    holds no record yet; options the host does not know are ignored. *)
Definition idb_createIndex (st : ObjectStore) (name keyPath : string) (unique : bool)
  : exn + ObjectStore :=
  if existsb (fun ix => String.eqb (ix_name ix) name) (os_indexes st)
  then inl (DOMException "ConstraintError")
  else inr {| os_name := os_name st; os_keyPath := os_keyPath st;
              os_autoIncrement := os_autoIncrement st;
              os_generator := os_generator st;
              os_indexes := os_indexes st ++ [{| ix_name := name; ix_keyPath := keyPath;
                                                 ix_unique := unique |}];
              os_records := os_records st |}.

(** ** Column descriptors

    The object literals of the source: a property the literal does not
    write is [undefined], here [false] or [None]. *)

Inductive validation_kind := KString | KNumber | KEmail | KEnum | KTimestamp.

Record column := {
  col_name : string;
  col_key : bool;
  col_autoIncrement : bool;
  col_unique : bool;
  col_encrypted : bool;
  col_default : option jsval;
  col_options : option (list jsval);
  col_validation : option validation_kind;
  col_required : bool
}.

Definition named (n : string) : column :=
  {| col_name := n; col_key := false; col_autoIncrement := false;
     col_unique := false; col_encrypted := false; col_default := None;
     col_options := None; col_validation := None; col_required := false |}.

Definition set_key (c : column) : column :=
  {| col_name := col_name c; col_key := true; col_autoIncrement := true;
     col_unique := col_unique c; col_encrypted := col_encrypted c;
     col_default := col_default c; col_options := col_options c;
     col_validation := col_validation c; col_required := col_required c |}.

Definition set_unique (c : column) : column :=
  {| col_name := col_name c; col_key := col_key c;
     col_autoIncrement := col_autoIncrement c;
     col_unique := true; col_encrypted := col_encrypted c;
     col_default := col_default c; col_options := col_options c;
     col_validation := col_validation c; col_required := col_required c |}.

Definition set_encrypted (c : column) : column :=
  {| col_name := col_name c; col_key := col_key c;
     col_autoIncrement := col_autoIncrement c;
     col_unique := col_unique c; col_encrypted := true;
     col_default := col_default c; col_options := col_options c;
     col_validation := col_validation c; col_required := col_required c |}.

Definition set_default (v : jsval) (c : column) : column :=
  {| col_name := col_name c; col_key := col_key c;
     col_autoIncrement := col_autoIncrement c;
     col_unique := col_unique c; col_encrypted := col_encrypted c;
     col_default := Some v; col_options := col_options c;
     col_validation := col_validation c; col_required := col_required c |}.

Definition set_options (l : list jsval) (c : column) : column :=
  {| col_name := col_name c; col_key := col_key c;
     col_autoIncrement := col_autoIncrement c;
     col_unique := col_unique c; col_encrypted := col_encrypted c;
     col_default := col_default c; col_options := Some l;
     col_validation := col_validation c; col_required := col_required c |}.

Definition set_validation (k : validation_kind) (c : column) : column :=
  {| col_name := col_name c; col_key := col_key c;
     col_autoIncrement := col_autoIncrement c;
     col_unique := col_unique c; col_encrypted := col_encrypted c;
     col_default := col_default c; col_options := col_options c;
     col_validation := Some k; col_required := col_required c |}.

(** [{ name: n, required: r, validation: k }], the shape of the lists the
    CRUD methods pass to [validateData]. *)
Definition checked (n : string) (r : bool) (k : validation_kind) : column :=
  {| col_name := n; col_key := false; col_autoIncrement := false;
     col_unique := false; col_encrypted := false; col_default := None;
     col_options := None; col_validation := Some k; col_required := r |}.

Record table := { tbl_name : string; tbl_columns : list column }.

(** The [tables] literal of [createTables]. *)
Definition tables : list table :=
  [ {| tbl_name := "users";
       tbl_columns :=
         [ set_key (named "id");
           set_validation KString (set_unique (named "username"));
           set_validation KString (set_encrypted (named "password"));
           set_validation KString (set_default (VStr (js "utilisateur")) (named "role"));
           set_validation KEmail (named "email") ] |};
    {| tbl_name := "non_conformites";
       tbl_columns :=
         [ set_key (named "id");
           set_validation KString (named "type_defaut");
           set_validation KString (named "poste");
           set_validation KEnum
             (set_options [VStr (js "Mineure"); VStr (js "Majeure"); VStr (js "Critique")]
                (named "gravite"));
           set_validation KString (named "description");
           set_validation KString (set_default (VStr (js "Ouvert")) (named "statut"));
           set_validation KTimestamp
             (set_default (VStr (js "CURRENT_TIMESTAMP")) (named "date_creation"));
           set_validation KNumber (named "id_declarant") ] |};
    {| tbl_name := "actions_correctives";
       tbl_columns :=
         [ set_key (named "id");
           set_validation KString (named "description");
           set_validation KString (named "responsable");
           set_validation KNumber (named "delai");
           set_validation KString
             (set_default (VStr (js "Non d" ++ [233] ++ js "marr" ++ [233])) (named "statut"));
           set_validation KNumber (named "id_nc") ] |} ].

(** ** The world: the manager, the caller's objects, the console *)

Inductive outcome (A : Type) :=
| Return (a : A)
| Throw (e : exn)
| Pending.
Arguments Return {A} a.
Arguments Throw {A} e.
Arguments Pending {A}.

(** What the open request of [indexedDB.open] fires, in order. *)
Inductive OpenEvent :=
| onerror (message : jsstring)            (* event.target.error.message *)
| onsuccess (result : IDBDatabase)
| onupgradeneeded (result : IDBDatabase) (oldVersion newVersion : Z).

(** The host: whether [window.indexedDB] exists, the events of an open
    request, and whether [Date.parse] of a string is NaN (which is left to
    the implementation for most strings). *)
Record Host := {
  window_indexedDB : bool;
  indexedDB_open : jsstring -> Z -> list OpenEvent;
  Date_parse_isNaN : jsstring -> bool
}.

(** A line of the console. The time stamp, the payload of an information
    line and the stack of an error are not modelled. *)
Inductive logEntry :=
| INFO (event : string)
| ERROR (event : string) (error : exn).

Record DatabaseManager := {
  db : option IDBDatabase;
  dbVersion : Z;
  dbName : jsstring;
  initializationPromise : bool          (* [false] is [null] *)
}.

Record World := {
  this : DatabaseManager;
  heap : gmap nat jsobj;                (* the caller's objects, by reference *)
  console : list logEntry;
  opened : list (list string * mode)    (* the transactions created so far *)
}.

Definition M (A : Type) : Type := World -> outcome A * World.

Definition ret {A} (a : A) : M A := fun w => (Return a, w).
Definition throw {A} (e : exn) : M A := fun w => (Throw e, w).
Definition pending {A} : M A := fun w => (Pending, w).

Definition bind {A B} (m : M A) (f : A -> M B) : M B :=
  fun w => match m w with
           | (Return a, w') => f a w'
           | (Throw e, w') => (Throw e, w')
           | (Pending, w') => (Pending, w')
           end.

Notation "'let*' x ':=' m 'in' k" := (bind m (fun x => k))
  (at level 10, x pattern, k at level 200).

(** [try { m } catch (error) { h error }]. *)
Definition try_catch {A} (m : M A) (h : exn -> M A) : M A :=
  fun w => match m w with
           | (Throw e, w') => h e w'
           | r => r
           end.

(** An exception or a value of the host, as a computation. *)
Definition lift {A} (r : exn + A) : M A :=
  match r with
  | inl e => throw e
  | inr a => ret a
  end.

Definition set_db (d : IDBDatabase) : M unit :=
  fun w => (Return (),
            {| this := {| db := Some d; dbVersion := dbVersion (this w);
                          dbName := dbName (this w);
                          initializationPromise := initializationPromise (this w) |};
               heap := heap w; console := console w; opened := opened w |}).

Definition set_initializationPromise : M unit :=
  fun w => (Return (),
            {| this := {| db := db (this w); dbVersion := dbVersion (this w);
                          dbName := dbName (this w);
                          initializationPromise := true |};
               heap := heap w; console := console w; opened := opened w |}).

Definition print (l : logEntry) : M unit :=
  fun w => (Return (),
            {| this := this w; heap := heap w; console := console w ++ [l];
               opened := opened w |}).

Definition logInfo (event : string) : M unit := print (INFO event).
Definition logError (event : string) (error : exn) : M unit := print (ERROR event error).

(** Reading and writing a property of a caller's object. *)
Definition object_at (w : World) (l : nat) : jsobj :=
  match heap w !! l with
  | Some o => o
  | None => ∅
  end.

Definition read_object (l : nat) : M jsobj := fun w => (Return (object_at w l), w).

Definition write_prop (l : nat) (p : string) (v : jsval) : M unit :=
  fun w => (Return (),
            {| this := this w; heap := <[l := <[p := v]> (object_at w l)]> (heap w);
               console := console w; opened := opened w |}).

(** ** The class [DatabaseManager] *)

Definition msg_not_initialised : jsstring :=
  js "Base de donn" ++ [233] ++ js "es non initialis" ++ [233] ++ js "e".

Definition msg_no_indexedDB : jsstring :=
  js "IndexedDB non support" ++ [233] ++ js " par ce navigateur".

Definition msg_validation : jsstring :=
  js "Validation " ++ [233] ++ js "chou" ++ [233] ++ js "e: ".

Definition msg_doit_etre : jsstring := js " doit " ++ [234] ++ js "tre ".

(** The column lists the CRUD methods pass to [validateData]. *)
Definition addUser_schema : list column :=
  [ checked "username" true KString;
    checked "password" true KString;
    checked "role" false KString;
    checked "email" false KEmail ].

Definition addNonConformite_schema : list column :=
  [ checked "type_defaut" true KString;
    checked "poste" true KString;
    checked "gravite" true KEnum;
    checked "description" true KString;
    checked "id_declarant" true KNumber ].

Definition addActionCorrective_schema : list column :=
  [ checked "description" true KString;
    checked "responsable" true KString;
    checked "delai" true KNumber;
    checked "id_nc" true KNumber ].

Section Manager.

Variable host : Host.

(** *** [validateData(data, schema)] *)

Definition is_blank (value : jsval) : bool :=
  match value with
  | VUndefined | VNull => true
  | VStr [] => true
  | _ => false
  end.

(** The body of [schema.forEach(column => ...)]: the errors pushed so far
    are threaded; reading [includes] of an absent [options] throws. *)
Definition check_column (data : jsobj) (column : column) (errors : list jsstring)
  : exn + list jsstring :=
  let value := get_prop data (col_name column) in
  let errors :=
    if col_required column && is_blank value
    then errors ++ [js (col_name column) ++ js " est requis"]
    else errors in
  match value with
  | VUndefined | VNull => inr errors
  | _ =>
      match col_validation column with
      | Some KString =>
          match typeof value with
          | TString => inr errors
          | _ => inr (errors ++ [js (col_name column) ++ msg_doit_etre
                                 ++ js "une cha" ++ [238] ++ js "ne de caract"
                                 ++ [232] ++ js "res"])
          end
      | Some KNumber =>
          match typeof value with
          | TNumber => inr errors
          | _ => inr (errors ++ [js (col_name column) ++ msg_doit_etre ++ js "un nombre"])
          end
      | Some KEmail =>
          if Regex.test emailRegex (ToString value) then inr errors
          else inr (errors ++ [js (col_name column) ++ js " n'est pas un email valide"])
      | Some KEnum =>
          match col_options column with
          | None => inl TypeError
          | Some options =>
              if includes options value then inr errors
              else inr (errors ++ [js (col_name column) ++ msg_doit_etre
                                   ++ js "l'une des valeurs: "
                                   ++ join_values (js ", ") options])
          end
      | Some KTimestamp =>
          if Date_parse_isNaN host (ToString value)
          then inr (errors ++ [js (col_name column) ++ msg_doit_etre
                               ++ js "une date valide"])
          else inr errors
      | None => inr errors
      end
  end.

Fixpoint forEach_column (data : jsobj) (schema : list column) (errors : list jsstring)
  : exn + list jsstring :=
  match schema with
  | [] => inr errors
  | column :: rest =>
      match check_column data column errors with
      | inl e => inl e
      | inr errors' => forEach_column data rest errors'
      end
  end.

Definition validateData (data : jsobj) (schema : list column) : exn + unit :=
  match forEach_column data schema [] with
  | inl e => inl e
  | inr [] => inr ()
  | inr errors => inl (Error (msg_validation ++ join (js ", ") errors))
  end.

(** *** [createTables()] *)

(** [this.db.transaction(storeNames, mode)]; [this.db] being [null] is a
    [TypeError]. A transaction that was created is recorded. *)
Definition db_transaction (storeNames : list string) (m : mode) : M unit :=
  fun w =>
    match db (this w) with
    | None => (Throw TypeError, w)
    | Some d =>
        match idb_transaction d storeNames m with
        | inl e => (Throw e, w)
        | inr _ => (Return (),
                    {| this := this w; heap := heap w; console := console w;
                       opened := opened w ++ [(storeNames, m)] |})
        end
    end.

(** The connection, which the host mutates in place. *)
Definition the_db : M IDBDatabase :=
  fun w => match db (this w) with
           | None => (Throw TypeError, w)
           | Some d => (Return d, w)
           end.

(** [table.columns.forEach(column => { if (column.key) return; ...
    objectStore.createIndex(column.name, column.name, options) })]. *)
Fixpoint forEach_createIndex (columns : list column) (objectStore : ObjectStore)
  : exn + ObjectStore :=
  match columns with
  | [] => inr objectStore
  | column :: rest =>
      if col_key column then forEach_createIndex rest objectStore
      else match idb_createIndex objectStore (col_name column) (col_name column)
                                 (col_unique column || false) with
           | inl e => inl e
           | inr objectStore' => forEach_createIndex rest objectStore'
           end
  end.

(** The body of [tables.forEach(table => ...)]. The store is created with
    [{ keyPath: "id" }] and nothing else. *)
Definition createTable (t : table) : M unit :=
  let* d := the_db in
  if negb (contains (objectStoreNames d) (tbl_name t)) then
    let* created := lift (idb_createObjectStore d (tbl_name t) "id" false) in
    let* _ := set_db (snd created) in
    let* objectStore := lift (forEach_createIndex (tbl_columns t) (fst created)) in
    let* _ := set_db (replace_store (snd created) objectStore) in
    logInfo "TABLE_CREATED"
  else ret ().

Fixpoint forEach_table (ts : list table) : M unit :=
  match ts with
  | [] => ret ()
  | t :: rest => let* _ := createTable t in forEach_table rest
  end.

Definition createTables : M unit :=
  fun w =>
    match db (this w) with
    | None => (Throw (Error msg_not_initialised), w)
    | Some _ =>
        try_catch
          (let* _ := db_transaction ["users"; "non_conformites"; "actions_correctives"]
                                    versionchange in
           let* _ := forEach_table tables in
           (* transaction.oncomplete *)
           logInfo "TABLES_INITIALIZATION_COMPLETE")
          (fun error =>
             let* _ := logError "TABLES_CREATION_FAILED" error in throw error)
          w
    end.

(** *** [initDatabase()] *)

Inductive promise_state := Unsettled | Resolved | Rejected (e : exn).

Definition settle (p s : promise_state) : promise_state :=
  match p with
  | Unsettled => s
  | _ => p
  end.

(** The three handlers of the open request. An exception that escapes a
    handler goes to the host, not to the code that awaits the promise. *)
Definition handle (ev : OpenEvent) (p : promise_state) : M promise_state :=
  match ev with
  | onerror message =>
      let error := Error (js "Erreur d'ouverture DB: " ++ message) in
      let* _ := logError "DB_INIT_ERROR" error in
      ret (settle p (Rejected error))
  | onsuccess result =>
      let* _ := set_db result in
      let* _ := logInfo "DB_INIT_SUCCESS" in
      ret (settle p Resolved)
  | onupgradeneeded result _ _ =>
      let* _ := set_db result in
      let* _ := logInfo "DB_UPGRADE_NEEDED" in
      fun w => (Return p, snd (createTables w))
  end.

Fixpoint handle_all (evs : list OpenEvent) (p : promise_state) : M promise_state :=
  match evs with
  | [] => ret p
  | ev :: rest => let* p' := handle ev p in handle_all rest p'
  end.

Definition initDatabase : M unit :=
  try_catch
    (if negb (window_indexedDB host) then throw (Error msg_no_indexedDB)
     else
       fun w =>
         (let* _ := set_initializationPromise in
          let* p := handle_all (indexedDB_open host (dbName (this w)) (dbVersion (this w)))
                               Unsettled in
          match p with
          | Resolved => createTables
          | Rejected e => throw e
          | Unsettled => pending
          end) w)
    (fun error =>
       let* _ := logError "DB_INITIALIZATION_FAILED" error in throw error).

(** The constructor; the promise of [this.initDatabase()] is dropped. *)
Definition new_DatabaseManager : World :=
  snd (initDatabase
         {| this := {| db := None; dbVersion := 1; dbName := js "QTrackDB";
                       initializationPromise := false |};
            heap := ∅; console := []; opened := [] |}).

(** *** [executeTransaction(storeNames, mode, operation)] *)

Record Transaction := { tx_scope : list string; tx_mode : mode }.

Definition executeTransaction {A} (storeNames : list string) (m : mode)
    (operation : Transaction -> M A) : M A :=
  fun w =>
    match db (this w) with
    | None => (Throw (Error msg_not_initialised), w)
    | Some _ =>
        (let* _ := (if initializationPromise (this w) then ret () else initDatabase) in
         try_catch
           (let* _ := db_transaction storeNames m in
            operation {| tx_scope := storeNames; tx_mode := m |})
           (fun error =>
              let* _ := logError "TRANSACTION_FAILED" error in throw error)) w
    end.

(** [transaction.objectStore(name)]. *)
Definition objectStore (transaction : Transaction) (name : string) : M ObjectStore :=
  let* d := the_db in
  if contains (tx_scope transaction) name then
    match find_store d name with
    | Some st => ret st
    | None => throw (DOMException "NotFoundError")
    end
  else throw (DOMException "NotFoundError").

(** [store.add(value)] and the promise around the request: the key on
    success, the exception or the request's error otherwise. The value is
    cloned into the store. *)
Definition request_add (transaction : Transaction) (store : ObjectStore) (value : nat)
  : M jsval :=
  let* o := read_object value in
  let* r := lift (idb_add (tx_mode transaction) store o) in
  let* d := the_db in
  let* _ := set_db (replace_store d (snd r)) in
  ret (fst r).

(** *** The CRUD methods *)

Definition addUser (user : nat) : M jsval :=
  try_catch
    (let* o := read_object user in
     let* _ := lift (validateData o addUser_schema) in
     let* _ := (if truthy (get_prop o "password")
                then write_prop user "password"
                       (VStr (hashPassword (ToString (get_prop o "password"))))
                else ret ()) in
     executeTransaction ["users"] readwrite
       (fun transaction =>
          let* store := objectStore transaction "users" in
          request_add transaction store user))
    (fun error => let* _ := logError "USER_ADD_FAILED" error in throw error).

Definition getUser (username : jsval) : M (option jsobj) :=
  executeTransaction ["users"] readonly
    (fun transaction =>
       let* store := objectStore transaction "users" in
       lift (idb_index_get store "username" username)).

Definition addNonConformite (nc : nat) : M jsval :=
  try_catch
    (let* o := read_object nc in
     let* _ := lift (validateData o addNonConformite_schema) in
     executeTransaction ["non_conformites"] readwrite
       (fun transaction =>
          let* store := objectStore transaction "non_conformites" in
          request_add transaction store nc))
    (fun error => let* _ := logError "NC_ADD_FAILED" error in throw error).

Definition getNonConformites : M (list jsobj) :=
  executeTransaction ["non_conformites"] readonly
    (fun transaction =>
       let* store := objectStore transaction "non_conformites" in
       ret (idb_getAll store)).

Definition addActionCorrective (action : nat) : M jsval :=
  try_catch
    (let* o := read_object action in
     let* _ := lift (validateData o addActionCorrective_schema) in
     executeTransaction ["actions_correctives"] readwrite
       (fun transaction =>
          let* store := objectStore transaction "actions_correctives" in
          request_add transaction store action))
    (fun error => let* _ := logError "ACTION_ADD_FAILED" error in throw error).

End Manager.

(** *** [getDatabaseStatus()] *)

Inductive status_value :=
| SBool (b : bool)
| SNum (z : Z)
| SStr (s : jsstring)
| SArray (l : list string).

Definition getDatabaseStatus (w : World) : gmap string status_value :=
  {[ "initialized" := SBool (match db (this w) with Some _ => true | None => false end);
     "dbName" := SStr (dbName (this w));
     "version" := SNum (dbVersion (this w));
     "storeNames" := SArray (match db (this w) with
                             | Some d => objectStoreNames d
                             | None => []
                             end) ]}.

(** ** Worlds used in the scenarios *)

Definition blank (d : option IDBDatabase) (promise : bool) (h : gmap nat jsobj) : World :=
  {| this := {| db := d; dbVersion := 1; dbName := js "QTrackDB";
                initializationPromise := promise |};
     heap := h; console := []; opened := [] |}.

(** The database the loop of [createTables] builds on an empty connection
    during an upgrade, once the upgrade is over. *)
Definition declared_db : IDBDatabase :=
  match db (this (snd (forEach_table tables
                         (blank (Some {| objectStores := []; upgrading := true;
                                         closed := false |}) true ∅)))) with
  | Some d => {| objectStores := objectStores d; upgrading := false; closed := false |}
  | None => {| objectStores := []; upgrading := false; closed := false |}
  end.

(** A host whose database already holds the declared stores. *)
Definition browser : Host :=
  {| window_indexedDB := true;
     indexedDB_open := fun _ _ => [onsuccess declared_db];
     Date_parse_isNaN := fun _ => false |}.

(** The manager once the connection is there, with the caller's objects. *)
Definition ready (h : gmap nat jsobj) : World := blank (Some declared_db) true h.

Definition obj (l : list (string * jsval)) : jsobj := list_to_map l.

(** The records of the scenarios. *)
Definition alice : jsobj :=
  obj [("username", VStr (js "alice")); ("password", VStr (js "secret"))].

Definition scenario_A : jsobj :=
  obj [("type_defaut", VStr (js "rayure")); ("poste", VStr (js "P3"));
       ("gravite", VStr (js "Mineure")); ("description", VStr (js "surface"));
       ("id_declarant", VNum 7)].

Definition scenario_B : jsobj := obj [("poste", VStr (js "P3"))].

Definition scenario_B_error : exn :=
  Error (msg_validation
         ++ js "type_defaut est requis, gravite est requis, description est requis, id_declarant est requis").

(** A store that holds bob, asked for alice. *)
Definition with_bob : World :=
  snd (addUser browser 0
         (ready {[ 0%nat := obj [("id", VNum 1); ("username", VStr (js "bob"));
                                 ("password", VStr (js "x"))] ]})).

(** A host without [window.indexedDB]. *)
Definition no_indexedDB : Host :=
  {| window_indexedDB := false;
     indexedDB_open := fun _ _ => [];
     Date_parse_isNaN := fun _ => false |}.

(** A corrective action that carries its key and no [statut]. *)
Definition action_1 : jsobj :=
  obj [("id", VNum 1); ("description", VStr (js "reprise"));
       ("responsable", VStr (js "R1")); ("delai", VNum 0); ("id_nc", VNum 1)].

(** Two records of the caller with the same user name, the first of which
    was added. *)
Definition two_alices : gmap nat jsobj :=
  {[ 0%nat := <["id" := VNum 1]> alice;
     1%nat := obj [("id", VNum 2); ("username", VStr (js "alice"));
                   ("password", VStr (js "other"))] ]}.

Definition with_alice : World := snd (addUser browser 0 (ready two_alices)).

(** The connection a world holds and one of its stores, for worlds that
    have them. *)
Definition db_of (w : World) : IDBDatabase :=
  match db (this w) with
  | Some d => d
  | None => {| objectStores := []; upgrading := false; closed := false |}
  end.

Definition store_of (w : World) (name : string) : ObjectStore :=
  match find_store (db_of w) name with
  | Some st => st
  | None => {| os_name := name; os_keyPath := "id"; os_autoIncrement := false;
               os_generator := 1; os_indexes := []; os_records := [] |}
  end.

(** The connection the handlers of an open request leave in [this.db]:
    the result of the last [success] or [upgradeneeded] event, or what was
    there when no such event fired. *)
Definition last_connection (evs : list OpenEvent) (d0 : option IDBDatabase)
  : option IDBDatabase :=
  fold_left (fun acc ev => match ev with
                           | onerror _ => acc
                           | onsuccess d => Some d
                           | onupgradeneeded d _ _ => Some d
                           end) evs d0.

(** A host whose open request starts an upgrade and then fails. *)
Definition failing_upgrade : Host :=
  {| window_indexedDB := true;
     indexedDB_open := fun _ _ =>
       [ onupgradeneeded {| objectStores := []; upgrading := true; closed := false |} 0 1;
         onerror (js "aborted") ];
     Date_parse_isNaN := fun _ => false |}.

(** ** Notions used in the statements *)

(** The language of a regular expression. *)
Inductive Matches : Regex.regex -> jsstring -> Prop :=
| MEps : Matches Regex.Eps []
| MClass p c : p c = true -> Matches (Regex.Class p) [c]
| MCat r1 r2 s1 s2 : Matches r1 s1 -> Matches r2 s2 -> Matches (Regex.Cat r1 r2) (s1 ++ s2)
| MAltL r1 r2 s : Matches r1 s -> Matches (Regex.Alt r1 r2) s
| MAltR r1 r2 s : Matches r2 s -> Matches (Regex.Alt r1 r2) s
| MStarNil r : Matches (Regex.Star r) []
| MStarApp r s1 s2 :
    Matches r s1 -> Matches (Regex.Star r) s2 -> Matches (Regex.Star r) (s1 ++ s2).

(** A code unit that is neither white space nor ['@']. *)
Definition plain (c : N) : Prop := Regex.not_space_at c = true.

(** What [emailRegex] accepts: [local@domain.tld] with the three parts not
    empty and made of code units that are neither white space nor ['@']. *)
Definition email_shape (s : jsstring) : Prop :=
  exists l d t,
    s = l ++ [64] ++ d ++ [46] ++ t /\
    l <> [] /\ d <> [] /\ t <> [] /\
    Forall plain l /\ Forall plain d /\ Forall plain t.

(** The shape as the specification words it: at least one ['@'], at least
    one ['.'] after it, no white space. *)
Definition spec_email_shape (s : jsstring) : Prop :=
  (exists pre post, s = pre ++ 64 :: post /\ In 46 post) /\
  Forall (fun c => Regex.is_space c = false) s.

(** A lower-case hexadecimal digit. *)
Definition is_hex_digit (c : N) : bool :=
  ((48 <=? c) && (c <=? 57)) || ((97 <=? c) && (c <=? 102)).

(** The world after one more line on the console. *)
Definition logged (l : logEntry) (w : World) : World :=
  {| this := this w; heap := heap w; console := console w ++ [l]; opened := opened w |}.

(** The world after one more transaction was created. *)
Definition with_transaction (storeNames : list string) (m : mode) (w : World) : World :=
  {| this := this w; heap := heap w; console := console w;
     opened := opened w ++ [(storeNames, m)] |}.

(** A computation that leaves the caller's objects as they are. *)
Definition keeps_heap {A} (m : M A) : Prop := forall w, heap (snd (m w)) = heap w.

(** The world after the connection was replaced by [d]. *)
Definition with_db (d : IDBDatabase) (w : World) : World :=
  {| this := {| db := Some d; dbVersion := dbVersion (this w);
                dbName := dbName (this w);
                initializationPromise := initializationPromise (this w) |};
     heap := heap w; console := console w; opened := opened w |}.

(** The manager holds the connection [d], its initialisation promise is
    set, and the connection is neither under upgrade nor closed. *)
Definition usable (w : World) (d : IDBDatabase) : Prop :=
  db (this w) = Some d /\ initializationPromise (this w) = true /\
  upgrading d = false /\ closed d = false.

(** The store has a unique index named ["username"] on the property
    ["username"], as [createTables] declares it for [users]. *)
Definition has_username_index (st : ObjectStore) : Prop :=
  exists ix,
    find (fun i => String.eqb (ix_name i) "username") (os_indexes st) = Some ix /\
    ix_keyPath ix = "username" /\ ix_unique ix = true.

(** Reading back the digits written by [b.toString(16).padStart(2, '0')]. *)
Definition hex_value (c : N) : N := if c <? 58 then c - 48 else c - 87.

Fixpoint unhex (s : jsstring) : list N :=
  match s with
  | hi :: lo :: rest => (16 * hex_value hi + hex_value lo) :: unhex rest
  | _ => []
  end.

(** Between [w] and [w'], the store [name] received one record under the
    key [k], which it did not hold before; the records it held are still
    there, and the other stores are as they were. *)
Definition added_one (name : string) (k : jsval) (w w' : World) : Prop :=
  exists d d' st st',
    db (this w) = Some d /\ db (this w') = Some d' /\
    find_store d name = Some st /\ find_store d' name = Some st' /\
    has_key k (os_records st) = false /\
    has_key k (os_records st') = true /\
    (forall r, In r (os_records st) -> In r (os_records st')) /\
    length (os_records st') = S (length (os_records st)) /\
    (forall other, other <> name -> find_store d' other = find_store d other).

(** * Properties *)

(** ** Credential hashing *)

Lemma byte_hex_length (b : N) : length (padStart2 (toString16 b)) = 2%nat.
Proof. unfold toString16. destruct (b <? 16); reflexivity. Qed.

Lemma hex_digit_is_hex (d : N) : d < 16 -> is_hex_digit (hex_digit d) = true.
Proof.
  intros Hd. unfold hex_digit, is_hex_digit.
  destruct (N.ltb_spec d 10).
  - apply orb_true_iff. left. apply andb_true_iff. split; apply N.leb_le; lia.
  - apply orb_true_iff. right. apply andb_true_iff. split; apply N.leb_le; lia.
Qed.

Lemma byte_hex_digits (b : N) :
  b < 256 -> Forall (fun c => is_hex_digit c = true) (padStart2 (toString16 b)).
Proof.
  intros Hb. unfold toString16.
  destruct (N.ltb_spec b 16); simpl.
  - repeat constructor. now apply hex_digit_is_hex.
  - repeat constructor; apply hex_digit_is_hex.
    + apply N.Div0.div_lt_upper_bound. lia.
    + apply N.mod_lt. lia.
Qed.

Lemma word_bytes_bounded (w : N) : Forall (fun b => b < 256) (SHA256.word_bytes w).
Proof.
  unfold SHA256.word_bytes.
  repeat constructor; change 255 with (N.ones 8); rewrite N.land_ones;
    apply N.mod_lt; discriminate.
Qed.

Lemma digest_length (msg : list N) : length (SHA256.digest msg) = 32%nat.
Proof. reflexivity. Qed.

Lemma digest_bounded (msg : list N) : Forall (fun b => b < 256) (SHA256.digest msg).
Proof.
  unfold SHA256.digest. cbv zeta.
  repeat (apply Forall_app; split); apply word_bytes_bounded.
Qed.

(** The digest string has 64 code units, whatever the password. *)
Lemma hashPassword_length (password : jsstring) : length (hashPassword password) = 64%nat.
Proof.
  unfold hashPassword. cbv zeta.
  generalize (digest_length (TextEncoder_encode password)).
  generalize (SHA256.digest (TextEncoder_encode password)) as bytes.
  intros bytes Hlen.
  assert (H : forall l : list N,
             length (concat (map (fun b => padStart2 (toString16 b)) l))
             = (2 * length l)%nat).
  { induction l as [|b l IH]; [reflexivity|].
    cbn [map concat]. rewrite length_app, byte_hex_length, IH. simpl. lia. }
  rewrite H, Hlen. reflexivity.
Qed.

(** Every code unit of the digest string is a lower-case hexadecimal digit. *)
Lemma hashPassword_hex (password : jsstring) :
  Forall (fun c => is_hex_digit c = true) (hashPassword password).
Proof.
  unfold hashPassword. cbv zeta.
  generalize (digest_bounded (TextEncoder_encode password)).
  generalize (SHA256.digest (TextEncoder_encode password)) as bytes.
  induction bytes as [|b bytes IH]; intros Hb; cbn [map concat].
  - constructor.
  - inversion Hb; subst. apply Forall_app. split.
    + now apply byte_hex_digits.
    + now apply IH.
Qed.

(** A password that is not itself 64 lower-case hexadecimal digits is not
    its own digest string. *)
Lemma hashPassword_differs (password : jsstring) :
  length password <> 64%nat \/ Exists (fun c => is_hex_digit c = false) password ->
  hashPassword password <> password.
Proof.
  intros [Hlen | Hex] Heq.
  - apply Hlen. rewrite <- Heq. apply hashPassword_length.
  - pose proof (hashPassword_hex password) as Hall. rewrite Heq in Hall.
    apply Exists_exists in Hex. destruct Hex as [c [Hin Hc]].
    rewrite Forall_forall in Hall. specialize (Hall c Hin). congruence.
Qed.

Example sha256_constants :
  length SHA256.K = 64%nat /\
  nth 0 SHA256.K 0 = 0x428a2f98 /\
  nth 63 SHA256.K 0 = 0xc67178f2 /\
  SHA256.ra SHA256.H0 = 0x6a09e667 /\
  SHA256.rh SHA256.H0 = 0x5be0cd19.
Proof. vm_compute. repeat split. Qed.

Example hashPassword_abc :
  hashPassword (js "abc")
  = js "ba7816bf8f01cfea414140de5dae2223b00361a396177a9cb410ff61f20015ad".
Proof. vm_compute. reflexivity. Qed.

Example hashPassword_empty :
  hashPassword (js "")
  = js "e3b0c44298fc1c149afbf4c8996fb92427ae41e4649b934ca495991b7852b855".
Proof. vm_compute. reflexivity. Qed.

Example hashPassword_two_blocks :
  hashPassword (js "abcdbcdecdefdefgefghfghighijhijkijkljklmklmnlmnomnopnopq")
  = js "248d6a61d20638b8e5c026930c3e6039a33ce45964ff2167f6ecedd419db06c1".
Proof. vm_compute. reflexivity. Qed.

Example hashPassword_secret :
  hashPassword (js "secret")
  = js "2bb80d537b1da3e38bd30361aa855686bde0eacd7162fef6a25fe97bf527a25b".
Proof. vm_compute. reflexivity. Qed.

(** ** The derivative matcher and the shape [emailRegex] accepts *)

Lemma nullable_spec (r : Regex.regex) : Regex.nullable r = true <-> Matches r [].
Proof.
  induction r as [| |p|r1 IH1 r2 IH2|r1 IH1 r2 IH2|r IH]; simpl.
  - split; [discriminate | intros H; inversion H].
  - split; [constructor | reflexivity].
  - split; [discriminate | intros H; inversion H].
  - rewrite andb_true_iff, IH1, IH2. split.
    + intros [H1 H2]. change (@nil N) with (@nil N ++ []). now constructor.
    + intros H. inversion H as [| |? ? s1 s2 H1 H2 E1 E2| | | |]; subst.
      apply app_eq_nil in E2 as [-> ->]. now split.
  - rewrite orb_true_iff, IH1, IH2. split.
    + intros [H|H]; [now apply MAltL | now apply MAltR].
    + intros H. inversion H; subst; [now left | now right].
  - split; [constructor | reflexivity].
Qed.

Lemma star_cons_inv (r : Regex.regex) (c : N) (s : jsstring) :
  Matches (Regex.Star r) (c :: s) ->
  exists s1 s2, s = s1 ++ s2 /\ Matches r (c :: s1) /\ Matches (Regex.Star r) s2.
Proof.
  intros H. remember (Regex.Star r) as r' eqn:Er. remember (c :: s) as s' eqn:Es.
  revert s Es.
  induction H as [| | | | | |r0 s1 s2 H1 _ H2 IH2]; intros t Es; try discriminate.
  injection Er as ->.
  destruct s1 as [|c1 s1].
  - simpl in Es. now apply IH2.
  - simpl in Es. injection Es as -> <-. exists s1, s2. now repeat split.
Qed.

Lemma deriv_spec (c : N) (r : Regex.regex) (s : jsstring) :
  Matches (Regex.deriv c r) s <-> Matches r (c :: s).
Proof.
  revert s.
  induction r as [| |p|r1 IH1 r2 IH2|r1 IH1 r2 IH2|r IH]; intros s; simpl.
  - split; intros H; inversion H.
  - split; intros H; inversion H.
  - destruct (p c) eqn:Hp; split; intros H; inversion H; subst.
    + now constructor.
    + constructor.
    + congruence.
  - assert (Hcat : Matches (Regex.Cat (Regex.deriv c r1) r2) s <->
                   exists s1 s2, s = s1 ++ s2 /\ Matches r1 (c :: s1) /\ Matches r2 s2).
    { split.
      - intros H. inversion H as [| |? ? s1 s2 H1 H2| | | |]; subst.
        exists s1, s2. rewrite <- IH1. now repeat split.
      - intros (s1 & s2 & -> & H1 & H2). constructor; [now apply IH1 | exact H2]. }
    destruct (Regex.nullable r1) eqn:Hn.
    + split.
      * intros H. inversion H as [| | |? ? ? HL|? ? ? HR| |]; subst.
        -- apply Hcat in HL as (s1 & s2 & -> & H1 & H2).
           change (c :: s1 ++ s2) with ((c :: s1) ++ s2). now constructor.
        -- change (c :: s) with ([] ++ c :: s). constructor.
           ++ now apply nullable_spec.
           ++ now apply IH2.
      * intros H. inversion H as [| |? ? s1 s2 H1 H2 E1 E2| | | |]; subst.
        destruct s1 as [|c1 s1]; simpl in E2.
        -- subst s2. apply MAltR. now apply IH2.
        -- injection E2 as -> <-. apply MAltL. apply Hcat. now exists s1, s2.
    + rewrite Hcat. split.
      * intros (s1 & s2 & -> & H1 & H2).
        change (c :: s1 ++ s2) with ((c :: s1) ++ s2). now constructor.
      * intros H. inversion H as [| |? ? s1 s2 H1 H2 E1 E2| | | |]; subst.
        destruct s1 as [|c1 s1]; simpl in E2.
        -- apply nullable_spec in H1. congruence.
        -- injection E2 as -> <-. now exists s1, s2.
  - split.
    + intros H. inversion H; subst; [apply MAltL; now apply IH1 | apply MAltR; now apply IH2].
    + intros H. inversion H; subst; [apply MAltL; now apply IH1 | apply MAltR; now apply IH2].
  - split.
    + intros H. inversion H as [| |? ? s1 s2 H1 H2| | | |]; subst.
      change (c :: s1 ++ s2) with ((c :: s1) ++ s2). constructor; [now apply IH | exact H2].
    + intros H. apply star_cons_inv in H as (s1 & s2 & -> & H1 & H2).
      constructor; [now apply IH | exact H2].
Qed.

(** The matcher decides the language. *)
Lemma test_spec (r : Regex.regex) (s : jsstring) : Regex.test r s = true <-> Matches r s.
Proof.
  revert r. induction s as [|c s IH]; intros r; simpl.
  - apply nullable_spec.
  - rewrite IH. apply deriv_spec.
Qed.

Lemma Matches_class_inv (p : N -> bool) (s : jsstring) :
  Matches (Regex.Class p) s -> exists c, s = [c] /\ p c = true.
Proof. intros H. inversion H; subst. eauto. Qed.

Lemma Matches_star_class (p : N -> bool) (s : jsstring) :
  Matches (Regex.Star (Regex.Class p)) s <-> Forall (fun c => p c = true) s.
Proof.
  split.
  - intros H. remember (Regex.Star (Regex.Class p)) as r eqn:Er.
    induction H as [| | | | | |r0 s1 s2 H1 _ H2 IH2]; try discriminate.
    + constructor.
    + injection Er as ->. apply Matches_class_inv in H1 as (c & -> & Hc).
      constructor; [exact Hc | now apply IH2].
  - induction 1 as [|c s Hc _ IH].
    + constructor.
    + change (c :: s) with ([c] ++ s). constructor; [now constructor | exact IH].
Qed.

Lemma Matches_plus_class (p : N -> bool) (s : jsstring) :
  Matches (Regex.Plus (Regex.Class p)) s <-> s <> [] /\ Forall (fun c => p c = true) s.
Proof.
  unfold Regex.Plus. split.
  - intros H. inversion H as [| |? ? s1 s2 H1 H2| | | |]; subst.
    apply Matches_class_inv in H1 as (c & -> & Hc). split; [discriminate|].
    constructor; [exact Hc | now apply Matches_star_class].
  - intros [Hne Hall]. destruct Hall as [|c s Hc Hs]; [congruence|].
    change (c :: s) with ([c] ++ s).
    constructor; [now constructor | now apply Matches_star_class].
Qed.

Lemma Matches_cat_inv (r1 r2 : Regex.regex) (s : jsstring) :
  Matches (Regex.Cat r1 r2) s <-> exists s1 s2, s = s1 ++ s2 /\ Matches r1 s1 /\ Matches r2 s2.
Proof.
  split.
  - intros H. inversion H; subst. eauto.
  - intros (s1 & s2 & -> & H1 & H2). now constructor.
Qed.

Lemma Matches_chr_inv (c : N) (s : jsstring) : Matches (Regex.Chr c) s <-> s = [c].
Proof.
  unfold Regex.Chr. split.
  - intros H. apply Matches_class_inv in H as (c' & -> & Hc).
    apply N.eqb_eq in Hc. now subst.
  - intros ->. constructor. apply N.eqb_refl.
Qed.

(** [emailRegex.test(s)] holds exactly for the strings of [email_shape]. *)
Lemma emailRegex_spec (s : jsstring) : Regex.test emailRegex s = true <-> email_shape s.
Proof.
  rewrite test_spec. unfold emailRegex, email_shape, plain. split.
  - intros H.
    apply Matches_cat_inv in H as (l & s1 & -> & Hl & H).
    apply Matches_cat_inv in H as (a & s2 & -> & Ha & H).
    apply Matches_cat_inv in H as (d & s3 & -> & Hd & H).
    apply Matches_cat_inv in H as (dot & t & -> & Hdot & Ht).
    apply Matches_chr_inv in Ha as ->. apply Matches_chr_inv in Hdot as ->.
    apply Matches_plus_class in Hl as [? ?].
    apply Matches_plus_class in Hd as [? ?].
    apply Matches_plus_class in Ht as [? ?].
    exists l, d, t. now repeat split.
  - intros (l & d & t & -> & Hl & Hd & Ht & Al & Ad & At).
    apply Matches_cat_inv. exists l, ([64] ++ d ++ [46] ++ t).
    repeat split; [now apply Matches_plus_class|].
    apply Matches_cat_inv. exists [64], (d ++ [46] ++ t).
    repeat split; [now apply Matches_chr_inv|].
    apply Matches_cat_inv. exists d, ([46] ++ t).
    repeat split; [now apply Matches_plus_class|].
    apply Matches_cat_inv. exists [46], t.
    repeat split; [now apply Matches_chr_inv | now apply Matches_plus_class].
Qed.

Example emailRegex_ok : Regex.test emailRegex (js "alice@example.org") = true.
Proof. reflexivity. Qed.

Example emailRegex_two_at : Regex.test emailRegex (js "a@b@c.d") = false.
Proof. reflexivity. Qed.

Example emailRegex_no_break_space :
  Regex.test emailRegex (js "a" ++ [160] ++ js "b@c.d") = false.
Proof. reflexivity. Qed.

(** ** Validation *)

Section Validation.

Variable host : Host.

(** A column's check only appends to the errors pushed so far. *)
Lemma check_column_appends (data : jsobj) (c : column) (errors : list jsstring) :
  check_column host data c errors
  = match check_column host data c [] with
    | inl e => inl e
    | inr more => inr (errors ++ more)
    end.
Proof.
  unfold check_column.
  destruct (col_required c && is_blank (get_prop data (col_name c)));
    destruct (get_prop data (col_name c)); cbn [app];
    rewrite ?app_nil_r; try reflexivity;
    destruct (col_validation c) as [[]|]; cbn [typeof app];
    rewrite ?app_nil_r; try reflexivity;
    repeat match goal with
           | |- context [match ?x with _ => _ end] => destruct x
           end; cbn [app]; rewrite ?app_nil_r, <- ?app_assoc; reflexivity.
Qed.

Lemma forEach_column_appends (data : jsobj) (schema : list column) (errors : list jsstring) :
  forEach_column host data schema errors
  = match forEach_column host data schema [] with
    | inl e => inl e
    | inr more => inr (errors ++ more)
    end.
Proof.
  revert errors. induction schema as [|c schema IH]; intros errors; simpl.
  - now rewrite app_nil_r.
  - rewrite (check_column_appends data c errors).
    destruct (check_column host data c []) as [e|more]; [reflexivity|].
    rewrite (IH (errors ++ more)), (IH more).
    destruct (forEach_column host data schema []) as [e|more']; [reflexivity|].
    now rewrite app_assoc.
Qed.

(** When no column check throws, [validateData] gathers the violations of
    every column, in the order of the columns, and throws one error whose
    message joins them all. *)
Lemma validateData_collects_all (data : jsobj) (schema : list column)
    (violations : list (list jsstring)) :
  Forall2 (fun c v => check_column host data c [] = inr v) schema violations ->
  validateData host data schema
  = match concat violations with
    | [] => inr ()
    | errors => inl (Error (msg_validation ++ join (js ", ") errors))
    end.
Proof.
  intros H. unfold validateData.
  assert (E : forEach_column host data schema [] = inr (concat violations)).
  { induction H as [|c v schema violations Hc _ IH]; [reflexivity|].
    simpl. rewrite Hc, forEach_column_appends, IH. reflexivity. }
  rewrite E. destruct (concat violations); reflexivity.
Qed.

(** A check of the enum kind on a column that carries no [options] throws
    a [TypeError] as soon as the value is there. *)
Lemma check_enum_without_options (data : jsobj) (n : string) (r : bool)
    (errors : list jsstring) :
  get_prop data n <> VUndefined -> get_prop data n <> VNull ->
  check_column host data (checked n r KEnum) errors = inl TypeError.
Proof.
  intros H1 H2. unfold check_column. cbn [col_name col_validation col_options checked].
  destruct (get_prop data n); congruence.
Qed.

Lemma forEach_column_cons (data : jsobj) (c : column) (rest : list column)
    (errors : list jsstring) :
  forEach_column host data (c :: rest) errors
  = match check_column host data c errors with
    | inl e => inl e
    | inr errors' => forEach_column host data rest errors'
    end.
Proof. reflexivity. Qed.

(** Errors pushed once are still there at the end of the loop. *)
Lemma forEach_column_keeps_errors (data : jsobj) (schema : list column)
    (errors : list jsstring) :
  errors <> [] -> forEach_column host data schema errors <> inr [].
Proof.
  intros Hne. rewrite forEach_column_appends.
  destruct (forEach_column host data schema []) as [e|more]; [discriminate|].
  destruct errors; [congruence | discriminate].
Qed.

(** No record passes the column list of [addNonConformite]: without a
    [gravite] the record misses a required column, with one the check of
    [gravite] throws. *)
Lemma addNonConformite_schema_never_passes (data : jsobj) :
  validateData host data addNonConformite_schema <> inr ().
Proof.
  assert (H : forEach_column host data addNonConformite_schema [] <> inr []).
  { unfold addNonConformite_schema.
    rewrite forEach_column_cons.
    destruct (check_column host data (checked "type_defaut" true KString) [])
      as [e1|errors1]; [discriminate|].
    rewrite forEach_column_cons.
    destruct (check_column host data (checked "poste" true KString) errors1)
      as [e2|errors2]; [discriminate|].
    rewrite forEach_column_cons.
    destruct (get_prop data "gravite") eqn:Hg.
    1, 2: unfold check_column at 1;
          cbn [col_name col_validation col_options col_required checked];
          rewrite Hg; cbn [is_blank andb];
          apply forEach_column_keeps_errors; destruct errors2; discriminate.
    all: rewrite check_enum_without_options by (rewrite Hg; discriminate);
         discriminate. }
  unfold validateData.
  destruct (forEach_column host data addNonConformite_schema []) as [e|[|m errors]];
    [discriminate | congruence | discriminate].
Qed.

End Validation.

(** ** The caller's objects are only touched by [addUser]

    Everything else leaves the heap as it is. *)

Lemma keeps_heap_ret {A} (a : A) : keeps_heap (ret a).
Proof. intros w. reflexivity. Qed.

Lemma keeps_heap_throw {A} (e : exn) : keeps_heap (@throw A e).
Proof. intros w. reflexivity. Qed.

Lemma keeps_heap_pending {A} : keeps_heap (@pending A).
Proof. intros w. reflexivity. Qed.

Lemma keeps_heap_lift {A} (r : exn + A) : keeps_heap (lift r).
Proof. destruct r; intros w; reflexivity. Qed.

Lemma keeps_heap_bind {A B} (m : M A) (f : A -> M B) :
  keeps_heap m -> (forall a, keeps_heap (f a)) -> keeps_heap (bind m f).
Proof.
  intros Hm Hf w. unfold bind. specialize (Hm w).
  destruct (m w) as [[a|e|] w']; simpl in *; [rewrite Hf|..]; exact Hm.
Qed.

Lemma keeps_heap_try_catch {A} (m : M A) (h : exn -> M A) :
  keeps_heap m -> (forall e, keeps_heap (h e)) -> keeps_heap (try_catch m h).
Proof.
  intros Hm Hh w. unfold try_catch. specialize (Hm w).
  destruct (m w) as [[a|e|] w']; simpl in *; [|rewrite Hh|]; exact Hm.
Qed.

Lemma keeps_heap_try_catch_eq {A} (m : M A) (h : exn -> M A) (w : World) :
  (forall e, keeps_heap (h e)) -> heap (snd (try_catch m h w)) = heap (snd (m w)).
Proof.
  intros Hh. unfold try_catch.
  destruct (m w) as [[a|e|] w']; simpl; [|apply Hh|]; reflexivity.
Qed.

Lemma keeps_heap_set_db (d : IDBDatabase) : keeps_heap (set_db d).
Proof. intros w. reflexivity. Qed.

Lemma keeps_heap_set_initializationPromise : keeps_heap set_initializationPromise.
Proof. intros w. reflexivity. Qed.

Lemma keeps_heap_print (l : logEntry) : keeps_heap (print l).
Proof. intros w. reflexivity. Qed.

Lemma keeps_heap_the_db : keeps_heap the_db.
Proof. intros w. unfold the_db. destruct (db (this w)); reflexivity. Qed.

Lemma keeps_heap_read_object (l : nat) : keeps_heap (read_object l).
Proof. intros w. reflexivity. Qed.

Lemma keeps_heap_db_transaction (storeNames : list string) (m : mode) :
  keeps_heap (db_transaction storeNames m).
Proof.
  intros w. unfold db_transaction.
  destruct (db (this w)) as [d|]; [|reflexivity].
  destruct (idb_transaction d storeNames m); reflexivity.
Qed.

Create HintDb heap.
#[local] Hint Resolve keeps_heap_ret keeps_heap_throw keeps_heap_pending keeps_heap_lift
  keeps_heap_set_db keeps_heap_set_initializationPromise keeps_heap_print
  keeps_heap_the_db keeps_heap_read_object keeps_heap_db_transaction : heap.

Ltac keeps_heap_step :=
  first [ apply keeps_heap_bind; [|intros ?]
        | apply keeps_heap_try_catch; [|intros ?]
        | progress (unfold logInfo, logError)
        | solve [auto with heap] ].

Lemma keeps_heap_createTable (t : table) : keeps_heap (createTable t).
Proof.
  unfold createTable. apply keeps_heap_bind; [auto with heap|]. intros d.
  destruct (negb (contains (objectStoreNames d) (tbl_name t)));
    repeat keeps_heap_step.
Qed.

Lemma keeps_heap_forEach_table (ts : list table) : keeps_heap (forEach_table ts).
Proof.
  induction ts as [|t ts IH]; simpl; [auto with heap|].
  apply keeps_heap_bind; [apply keeps_heap_createTable | intros _; exact IH].
Qed.

Lemma keeps_heap_createTables : keeps_heap createTables.
Proof.
  intros w. unfold createTables. destruct (db (this w)); [|reflexivity].
  revert w. apply keeps_heap_try_catch.
  - apply keeps_heap_bind; [auto with heap|]. intros _.
    apply keeps_heap_bind; [apply keeps_heap_forEach_table|]. intros _.
    repeat keeps_heap_step.
  - intros e. repeat keeps_heap_step.
Qed.

Lemma keeps_heap_handle (ev : OpenEvent) (p : promise_state) : keeps_heap (handle ev p).
Proof.
  destruct ev; unfold handle; repeat keeps_heap_step.
  intros w. apply keeps_heap_createTables.
Qed.

Lemma keeps_heap_handle_all (evs : list OpenEvent) (p : promise_state) :
  keeps_heap (handle_all evs p).
Proof.
  revert p. induction evs as [|ev evs IH]; intros p; simpl; [auto with heap|].
  apply keeps_heap_bind; [apply keeps_heap_handle | intros p'; apply IH].
Qed.

Lemma keeps_heap_initDatabase (host : Host) : keeps_heap (initDatabase host).
Proof.
  unfold initDatabase. apply keeps_heap_try_catch.
  - destruct (negb (window_indexedDB host)); [auto with heap|].
    intros w. revert w.
    intros w.
    refine (keeps_heap_bind _ _ _ _ w); [auto with heap|]. intros _.
    apply keeps_heap_bind; [apply keeps_heap_handle_all|].
    intros [| |e]; auto with heap. apply keeps_heap_createTables.
  - intros e. repeat keeps_heap_step.
Qed.

Lemma keeps_heap_executeTransaction (host : Host) {A} (storeNames : list string)
    (m : mode) (operation : Transaction -> M A) :
  (forall transaction, keeps_heap (operation transaction)) ->
  keeps_heap (executeTransaction host storeNames m operation).
Proof.
  intros Hop w. unfold executeTransaction.
  destruct (db (this w)); [|reflexivity].
  refine (keeps_heap_bind _ _ _ _ w).
  - destruct (initializationPromise (this w));
      [auto with heap | apply keeps_heap_initDatabase].
  - intros _. apply keeps_heap_try_catch.
    + apply keeps_heap_bind; [auto with heap | intros _; apply Hop].
    + intros e. repeat keeps_heap_step.
Qed.

Lemma keeps_heap_objectStore (transaction : Transaction) (name : string) :
  keeps_heap (objectStore transaction name).
Proof.
  unfold objectStore. apply keeps_heap_bind; [auto with heap|]. intros d.
  destruct (contains (tx_scope transaction) name); [|auto with heap].
  destruct (find_store d name); auto with heap.
Qed.

Lemma keeps_heap_request_add (transaction : Transaction) (store : ObjectStore)
    (value : nat) :
  keeps_heap (request_add transaction store value).
Proof. unfold request_add. repeat keeps_heap_step. Qed.

(** ** Store lookups *)

Lemma contains_insert_name (m n : string) (l : list string) :
  contains (insert_name m l) n = contains (m :: l) n.
Proof.
  unfold contains. induction l as [|x l IH]; [reflexivity|].
  cbn [insert_name]. destruct (String.leb m x); [reflexivity|].
  cbn [existsb] in *. rewrite IH.
  destruct (String.eqb n x), (String.eqb n m); reflexivity.
Qed.

(** Sorting the names changes nothing to which names are there. *)
Lemma contains_sort_names (n : string) (l : list string) :
  contains (sort_names l) n = contains l n.
Proof.
  induction l as [|x l IH]; [reflexivity|].
  cbn [sort_names fold_right]. rewrite contains_insert_name.
  unfold contains in *. cbn [existsb]. fold (sort_names l). now rewrite IH.
Qed.

Lemma find_store_contains (d : IDBDatabase) (n : string) (st : ObjectStore) :
  find_store d n = Some st -> contains (objectStoreNames d) n = true.
Proof.
  unfold objectStoreNames. rewrite contains_sort_names.
  unfold find_store, contains.
  induction (objectStores d) as [|s l IH]; simpl; [discriminate|].
  rewrite (String.eqb_sym n). destruct (String.eqb (os_name s) n); [reflexivity|].
  exact IH.
Qed.

Lemma find_all_false {A} (f : A -> bool) (l : list A) :
  (forall x, In x l -> f x = false) -> find f l = None.
Proof.
  induction l as [|x l IH]; intros H; simpl; [reflexivity|].
  rewrite (H x) by now left. apply IH. intros y Hy. apply H. now right.
Qed.

(** Without a key generator the key of a stored record is the value the
    caller put at the key path. *)
Lemma idb_add_key_without_generator (m : mode) (st st' : ObjectStore)
    (value : jsobj) (k : jsval) :
  os_autoIncrement st = false ->
  idb_add m st value = inr (k, st') ->
  value !! os_keyPath st = Some k.
Proof.
  intros Hauto. unfold idb_add, extract_key, store_record. rewrite Hauto.
  destruct m; [discriminate| |];
    (destruct (value !! os_keyPath st) as [v|]; [|discriminate];
     destruct v; cbn [is_valid_key]; try discriminate;
     destruct (has_key _ _); try discriminate;
     destruct (existsb _ _); try discriminate;
     intros [= <- _]; reflexivity).
Qed.

(** With a key generator, a record that carries no value at the key path
    gets the generator's current number as its key, and the generator moves
    on by one. *)
Lemma idb_add_key_with_generator (st st' : ObjectStore) (value : jsobj) (k : jsval) :
  os_autoIncrement st = true ->
  value !! os_keyPath st = None ->
  idb_add readwrite st value = inr (k, st') ->
  k = VNum (os_generator st) /\ os_generator st' = (os_generator st + 1)%Z.
Proof.
  intros Hauto Hnone. unfold idb_add, extract_key, store_record.
  rewrite Hauto, Hnone.
  destruct (max_generator <? os_generator st)%Z; [discriminate|].
  destruct (has_key _ _); [discriminate|].
  destruct (existsb _ _); [discriminate|].
  intros [= <- <-]. split; reflexivity.
Qed.

(** The stores [createTables] asks for have the key path ["id"] and no key
    generator. *)
Lemma declared_stores_have_no_generator :
  Forall (fun st => os_keyPath st = "id" /\ os_autoIncrement st = false)
         (objectStores declared_db).
Proof. vm_compute. repeat constructor. Qed.

(** [createTables] throws in every state: without a connection, during an
    upgrade, on a closed connection, when a store is missing, and otherwise
    because the mode of its transaction is ["versionchange"]. *)
Lemma createTables_throws (w : World) : exists e w', createTables w = (Throw e, w').
Proof.
  unfold createTables. destruct (db (this w)) as [d|] eqn:Hd; [|eauto].
  unfold try_catch, bind, db_transaction at 1. rewrite Hd.
  unfold idb_transaction.
  destruct (upgrading d); [eauto|].
  destruct (closed d); [eauto|].
  destruct (negb _); eauto.
Qed.

(** ** The operations *)

Section Operations.

Variable host : Host.

Lemma addUser_validation_failure (w : World) (user : nat) (e : exn) :
  validateData host (object_at w user) addUser_schema = inl e ->
  addUser host user w = (Throw e, logged (ERROR "USER_ADD_FAILED" e) w).
Proof.
  intros H. unfold addUser, try_catch, bind, read_object. rewrite H. reflexivity.
Qed.

Lemma addNonConformite_validation_failure (w : World) (nc : nat) (e : exn) :
  validateData host (object_at w nc) addNonConformite_schema = inl e ->
  addNonConformite host nc w = (Throw e, logged (ERROR "NC_ADD_FAILED" e) w).
Proof.
  intros H. unfold addNonConformite, try_catch, bind, read_object. rewrite H.
  reflexivity.
Qed.

Lemma addActionCorrective_validation_failure (w : World) (action : nat) (e : exn) :
  validateData host (object_at w action) addActionCorrective_schema = inl e ->
  addActionCorrective host action w
  = (Throw e, logged (ERROR "ACTION_ADD_FAILED" e) w).
Proof.
  intros H. unfold addActionCorrective, try_catch, bind, read_object. rewrite H.
  reflexivity.
Qed.

(** [addNonConformite] never resolves, whatever the record and the state. *)
Lemma addNonConformite_never_resolves (nc : nat) (w : World) (k : jsval) :
  fst (addNonConformite host nc w) <> Return k.
Proof.
  pose proof (addNonConformite_schema_never_passes host (object_at w nc)) as Hv.
  destruct (validateData host (object_at w nc) addNonConformite_schema) as [e|[]] eqn:He;
    [|congruence].
  rewrite (addNonConformite_validation_failure w nc e He). discriminate.
Qed.

(** C5. A record that fails validation makes the add reject with the error
    of the validation, before any transaction is created and without any
    change of the store: the world after the call is the world before it
    with one more line on the console (same connection and stores, same
    objects of the caller, same list of created transactions). This holds
    for [addUser], [addNonConformite] and [addActionCorrective]. *)
Theorem add_rejects_before_any_transaction (w : World) (record : nat) (e : exn) :
  (validateData host (object_at w record) addUser_schema = inl e ->
   addUser host record w = (Throw e, logged (ERROR "USER_ADD_FAILED" e) w)) /\
  (validateData host (object_at w record) addNonConformite_schema = inl e ->
   addNonConformite host record w = (Throw e, logged (ERROR "NC_ADD_FAILED" e) w)) /\
  (validateData host (object_at w record) addActionCorrective_schema = inl e ->
   addActionCorrective host record w
   = (Throw e, logged (ERROR "ACTION_ADD_FAILED" e) w)).
Proof.
  repeat split.
  - apply addUser_validation_failure.
  - apply addNonConformite_validation_failure.
  - apply addActionCorrective_validation_failure.
Qed.

(** C3, as amended. An operation attempted while the manager holds no
    database handle rejects at once with the error "Base de données non
    initialisée": no open is attempted, the operation is not run, nothing
    is retried, and the world is left as it was. *)
Theorem executeTransaction_without_handle {A} (storeNames : list string) (m : mode)
    (operation : Transaction -> M A) (w : World) :
  db (this w) = None ->
  executeTransaction host storeNames m operation w
  = (Throw (Error msg_not_initialised), w).
Proof. intros H. unfold executeTransaction. rewrite H. reflexivity. Qed.

(** With a connection at hand and the initialisation promise set,
    [executeTransaction] creates the transaction and runs the operation
    once. *)
Lemma executeTransaction_ready {A} (storeNames : list string) (m : mode)
    (operation : Transaction -> M A) (w : World) (d : IDBDatabase) :
  db (this w) = Some d ->
  initializationPromise (this w) = true ->
  idb_transaction d storeNames m = inr () ->
  executeTransaction host storeNames m operation w
  = try_catch (operation {| tx_scope := storeNames; tx_mode := m |})
      (fun error => let* _ := logError "TRANSACTION_FAILED" error in throw error)
      (with_transaction storeNames m w).
Proof.
  intros Hd Hp Ht. unfold executeTransaction. rewrite Hd, Hp.
  unfold bind at 1, ret at 1. unfold try_catch, bind at 1, db_transaction.
  rewrite Hd, Ht. reflexivity.
Qed.

(** A record that passes the column list of [addUser] has a string that is
    not empty as its password. *)
Lemma addUser_schema_password (data : jsobj) :
  validateData host data addUser_schema = inr () ->
  exists p, get_prop data "password" = VStr p /\ p <> [].
Proof.
  unfold validateData, addUser_schema. rewrite forEach_column_cons.
  destruct (check_column host data (checked "username" true KString) [])
    as [e1|errors1]; [discriminate|].
  rewrite forEach_column_cons, check_column_appends.
  intros H.
  destruct (check_column host data (checked "password" true KString) [])
    as [e2|more] eqn:Hc; [discriminate|].
  rewrite forEach_column_appends in H.
  destruct (forEach_column host data _ []) as [e|rest]; [discriminate|].
  assert (Hmore : more = []).
  { destruct more; [reflexivity|]. destruct errors1; discriminate. }
  subst more. unfold check_column in Hc.
  cbn [col_name col_validation col_required checked andb] in Hc.
  destruct (get_prop data "password") as [| | | |p]; cbn in Hc; try discriminate.
  destruct p; [discriminate|]. eexists. split; [reflexivity | discriminate].
Qed.

(** C10. [addUser] writes into the object it was given: when the record
    passes validation and its password is the string [p], the caller's
    object ends with its [password] property holding the digest string of
    [p], 64 lower-case hexadecimal digits, and every other property as it
    was; no other object of the caller changes. The digest string is not
    [p] itself unless [p] is already 64 lower-case hexadecimal digits. *)
Theorem addUser_overwrites_password_in_place (w : World) (user : nat) (p : jsstring) :
  validateData host (object_at w user) addUser_schema = inr () ->
  get_prop (object_at w user) "password" = VStr p ->
  let w' := snd (addUser host user w) in
  object_at w' user = <["password" := VStr (hashPassword p)]> (object_at w user) /\
  length (hashPassword p) = 64%nat /\
  Forall (fun c => is_hex_digit c = true) (hashPassword p) /\
  (forall f, f <> "password" -> object_at w' user !! f = object_at w user !! f) /\
  (forall other, other <> user -> heap w' !! other = heap w !! other) /\
  (length p <> 64%nat \/ Exists (fun c => is_hex_digit c = false) p ->
   object_at w' user !! "password" <> Some (VStr p)).
Proof.
  intros Hv Hp w'.
  destruct (addUser_schema_password _ Hv) as (p' & Hp' & Hne).
  assert (p' = p) by congruence. subst p'.
  assert (Hheap : heap w' = <[user := <["password" := VStr (hashPassword p)]>
                                         (object_at w user)]> (heap w)).
  { subst w'. unfold addUser.
    rewrite keeps_heap_try_catch_eq by (intros e; repeat keeps_heap_step).
    unfold bind at 1, read_object at 1. rewrite Hv.
    unfold bind at 1, lift at 1, ret at 1.
    rewrite Hp. destruct p as [|c p]; [congruence|]. cbn [truthy ToString].
    unfold bind at 1, write_prop at 1.
    rewrite keeps_heap_executeTransaction; [reflexivity|].
    intros transaction. apply keeps_heap_bind; [apply keeps_heap_objectStore|].
    intros st. apply keeps_heap_request_add. }
  assert (Hobj : object_at w' user
                 = <["password" := VStr (hashPassword p)]> (object_at w user)).
  { unfold object_at at 1. rewrite Hheap, lookup_insert_eq. reflexivity. }
  repeat split.
  - exact Hobj.
  - apply hashPassword_length.
  - apply hashPassword_hex.
  - intros f Hf. rewrite Hobj. now apply lookup_insert_ne.
  - intros other Ho. rewrite Hheap. now apply lookup_insert_ne.
  - intros Hd. rewrite Hobj, lookup_insert_eq. intros [= E].
    now apply (hashPassword_differs p Hd).
Qed.

(** C7, as amended. A value checked against a column of the email kind is
    admitted exactly when its string form is [local@domain.tld] with a
    single ['@'], no white space, a local part that is not empty and, after
    the ['@'], a ['.'] with at least one code unit before it and at least
    one after it. *)
Theorem email_column_admits_exactly (data : jsobj) (n : string) (r : bool) :
  get_prop data n <> VUndefined ->
  get_prop data n <> VNull ->
  validateData host data [checked n r KEmail] = inr ()
  <-> email_shape (ToString (get_prop data n)).
Proof.
  intros Hu Hn. rewrite <- emailRegex_spec.
  unfold validateData, forEach_column, check_column.
  cbn [col_name col_validation col_required checked].
  destruct (get_prop data n) as [| |b|z|s] eqn:Hg; try congruence.
  - rewrite andb_false_r.
    destruct (Regex.test emailRegex (ToString (VBool b))); split; (reflexivity || discriminate).
  - rewrite andb_false_r.
    destruct (Regex.test emailRegex (ToString (VNum z))); split; (reflexivity || discriminate).
  - destruct s as [|c s].
    + cbn. destruct r; split; discriminate.
    + cbn [is_blank]. rewrite andb_false_r.
      destruct (Regex.test emailRegex (ToString (VStr (c :: s)))); split;
        (reflexivity || discriminate).
Qed.

End Operations.

(** ** The status query *)

Lemma insert_name_sorted (n : string) (l : list string) :
  Sorted name_le l -> Sorted name_le (insert_name n l).
Proof.
  induction 1 as [|a l Hs IH Hd]; cbn [insert_name].
  - repeat constructor.
  - destruct (String.leb n a) eqn:Hna.
    + constructor; [now constructor | now constructor].
    + assert (Han : name_le a n).
      { destruct (String.leb_total n a) as [H|H]; [congruence | exact H]. }
      constructor; [exact IH|].
      destruct Hd as [|b l Hab]; cbn [insert_name]; [now constructor|].
      destruct (String.leb n b); now constructor.
Qed.

Lemma insert_name_Permutation (n : string) (l : list string) :
  Permutation (insert_name n l) (n :: l).
Proof.
  induction l as [|a l IH]; cbn [insert_name]; [reflexivity|].
  destruct (String.leb n a); [reflexivity|].
  rewrite IH. apply perm_swap.
Qed.

(** [db.objectStoreNames] holds the names of the stores, each as often as
    there is a store of that name, in ascending order. *)
Lemma objectStoreNames_sorted (d : IDBDatabase) :
  Sorted name_le (objectStoreNames d) /\
  Permutation (objectStoreNames d) (map os_name (objectStores d)).
Proof.
  unfold objectStoreNames.
  induction (map os_name (objectStores d)) as [|n l [IHs IHp]];
    cbn [sort_names fold_right].
  - split; constructor.
  - fold (sort_names l). split.
    + now apply insert_name_sorted.
    + rewrite insert_name_Permutation. now constructor.
Qed.

(** C8, as amended. The status is an object with exactly the properties
    [initialized], [dbName], [version] and [storeNames]: [initialized]
    tells whether [this.db] holds a connection object, whatever became of
    that connection, [dbName] and [version] are the manager's, and
    [storeNames] lists the names of the object stores of the connection in
    ascending order (nothing without a handle). *)
Theorem getDatabaseStatus_fields (w : World) :
  dom (getDatabaseStatus w)
  = ({[ "initialized"; "dbName"; "version"; "storeNames" ]} : gset string) /\
  getDatabaseStatus w !! "initialized"
  = Some (SBool (match db (this w) with Some _ => true | None => false end)) /\
  getDatabaseStatus w !! "dbName" = Some (SStr (dbName (this w))) /\
  getDatabaseStatus w !! "version" = Some (SNum (dbVersion (this w))) /\
  getDatabaseStatus w !! "storeNames"
  = Some (SArray (match db (this w) with
                  | Some d => objectStoreNames d
                  | None => []
                  end)) /\
  (forall d, db (this w) = Some d ->
             Sorted name_le (objectStoreNames d) /\
             Permutation (objectStoreNames d) (map os_name (objectStores d))).
Proof.
  unfold getDatabaseStatus. repeat split; apply objectStoreNames_sorted.
Qed.

(** C8, the wording of the specification. The status has no property
    [storeName] and no property [tableNames]; the names are [dbName] and
    [storeNames], and the store names come sorted. And [initialized] does
    not tell whether the handle is open: on a host whose open request
    starts an upgrade and then fails, [initDatabase] rejects with the
    error of the open, the handle assigned in [onupgradeneeded] stays in
    [this.db], and the status says [initialized: true]. *)
Lemma getDatabaseStatus_no_storeName :
  getDatabaseStatus (ready ∅) !! "storeName" = None /\
  getDatabaseStatus (ready ∅) !! "tableNames" = None /\
  getDatabaseStatus (ready ∅) !! "dbName" = Some (SStr (js "QTrackDB")) /\
  getDatabaseStatus (ready ∅) !! "storeNames"
  = Some (SArray ["actions_correctives"; "non_conformites"; "users"]) /\
  (let r := initDatabase failing_upgrade (blank None false ∅) in
   fst r = Throw (Error (js "Erreur d'ouverture DB: aborted")) /\
   getDatabaseStatus (snd r) !! "initialized" = Some (SBool true) /\
   getDatabaseStatus (snd r) !! "storeNames" = Some (SArray [])).
Proof. vm_compute. repeat split. Qed.

(** ** Scenarios *)

(** On a host whose database holds the declared stores, the constructor
    leaves the manager of [ready]; [createTables] has thrown on the way. *)
Example new_DatabaseManager_browser :
  this (new_DatabaseManager browser) = this (ready ∅) /\
  console (new_DatabaseManager browser)
  = [ INFO "DB_INIT_SUCCESS";
      ERROR "TABLES_CREATION_FAILED" TypeError;
      ERROR "DB_INITIALIZATION_FAILED" TypeError ].
Proof. vm_compute. repeat split. Qed.

(** C1. On the stores [createTables] asks for, the key an add returns is
    the [id] the caller put in the record: two adds in a row return 5 and
    then 3, and a record without [id] is refused by the store. *)
Theorem addUser_key_is_the_callers_id :
  let h : gmap nat jsobj :=
    {[ 0%nat := obj [("id", VNum 5); ("username", VStr (js "bob"));
                     ("password", VStr (js "x"))];
       1%nat := obj [("id", VNum 3); ("username", VStr (js "carol"));
                     ("password", VStr (js "y"))];
       2%nat := alice ]} in
  let r1 := addUser browser 0 (ready h) in
  let r2 := addUser browser 1 (snd r1) in
  let r3 := addUser browser 2 (snd r2) in
  fst r1 = Return (VNum 5) /\
  fst r2 = Return (VNum 3) /\
  fst r3 = Throw (DOMException "DataError").
Proof. vm_compute. repeat split. Qed.

(** C2. The record of scenario A is not stored at all: the check of
    [gravite] throws a [TypeError], and the list of non-conformities stays
    empty. *)
Theorem addNonConformite_scenario_A :
  let r := addNonConformite browser 0 (ready {[ 0%nat := scenario_A ]}) in
  fst r = Throw TypeError /\
  fst (getNonConformites browser (snd r)) = Return [].
Proof. vm_compute. repeat split. Qed.

(** Defaults are applied by no add: a corrective action that passes
    validation and carries an [id] is stored as it was given, without the
    [statut] its table declares a default for. *)
Example addActionCorrective_applies_no_default :
  let action := obj [("id", VNum 1); ("description", VStr (js "reprise"));
                     ("responsable", VStr (js "R1")); ("delai", VNum 5);
                     ("id_nc", VNum 1)] in
  let r := addActionCorrective browser 0 (ready {[ 0%nat := action ]}) in
  fst r = Return (VNum 1) /\
  (os_records <$> (db (this (snd r)) ≫= fun d => find_store d "actions_correctives"))
  = Some [(VNum 1, action)] /\
  action !! "statut" = None.
Proof. vm_compute. repeat split. Qed.

(** Scenario B: the four missing columns are all named, in one error. *)
Example addNonConformite_scenario_B :
  addNonConformite browser 0 (ready {[ 0%nat := scenario_B ]})
  = (Throw scenario_B_error,
     logged (ERROR "NC_ADD_FAILED" scenario_B_error) (ready {[ 0%nat := scenario_B ]})).
Proof. vm_compute. reflexivity. Qed.

(** C4. A record that violates five columns of [addNonConformite] at once
    (four required columns missing, [gravite] outside the enumeration) does
    not get the aggregated error: the check of [gravite] throws a
    [TypeError] in the middle of the loop, after two messages were pushed,
    and the messages are lost. *)
Theorem addNonConformite_enum_check_throws :
  let data := obj [("gravite", VStr (js "Catastrophique"))] in
  forEach_column browser data [ checked "type_defaut" true KString;
                                checked "poste" true KString ] []
  = inr [js "type_defaut est requis"; js "poste est requis"] /\
  validateData browser data addNonConformite_schema = inl TypeError /\
  fst (addNonConformite browser 0 (ready {[ 0%nat := data ]})) = Throw TypeError.
Proof. vm_compute. repeat split. Qed.

(** C6. Scenario C on the stores [createTables] asks for: the record has
    no [id] and the store has no key generator, so the add is refused and
    [getUser] finds nothing; the digest of the password was computed and
    written into the caller's object all the same. *)
Theorem addUser_scenario_C :
  let r := addUser browser 0 (ready {[ 0%nat := alice ]}) in
  fst r = Throw (DOMException "DataError") /\
  fst (getUser browser (VStr (js "alice")) (snd r)) = Return None /\
  object_at (snd r) 0 !! "password"
  = Some (VStr (js "2bb80d537b1da3e38bd30361aa855686bde0eacd7162fef6a25fe97bf527a25b")).
Proof. vm_compute. repeat split. Qed.

(** With the [id] the store needs, scenario C goes through and the stored
    password is the digest string. *)
Example addUser_scenario_C_with_id :
  let r := addUser browser 0 (ready {[ 0%nat := <["id" := VNum 1]> alice ]}) in
  fst r = Return (VNum 1) /\
  fst (getUser browser (VStr (js "alice")) (snd r))
  = Return (Some (<["password" :=
                      VStr (js "2bb80d537b1da3e38bd30361aa855686bde0eacd7162fef6a25fe97bf527a25b")]>
                    (<["id" := VNum 1]> alice))).
Proof. vm_compute. repeat split. Qed.

(** C3, the wording of the specification: with no handle, a read surfaces the bare
    error and the world is left as it was (no open was attempted, although
    the host would have delivered a connection). *)
Lemma no_implicit_open_without_handle :
  getNonConformites browser (blank None true ∅)
  = (Throw (Error msg_not_initialised), blank None true ∅) /\
  db (this (snd (initDatabase browser (blank None false ∅)))) = Some declared_db.
Proof. vm_compute. repeat split. Qed.

Lemma executeTransaction_without_handle_witness :
  getUser browser (VStr (js "alice")) (blank None true ∅)
  = (Throw (Error msg_not_initialised), blank None true ∅).
Proof.
  unfold getUser. apply (executeTransaction_without_handle browser). reflexivity.
Defined.

Lemma add_rejects_before_any_transaction_witness :
  addNonConformite browser 0 (ready {[ 0%nat := scenario_B ]})
  = (Throw scenario_B_error,
     logged (ERROR "NC_ADD_FAILED" scenario_B_error) (ready {[ 0%nat := scenario_B ]})).
Proof.
  apply (proj1 (proj2 (add_rejects_before_any_transaction browser
                         (ready {[ 0%nat := scenario_B ]}) 0 scenario_B_error))).
  vm_compute. reflexivity.
Defined.

Lemma addUser_overwrites_password_in_place_witness :
  let w := ready {[ 0%nat := alice ]} in
  object_at (snd (addUser browser 0 w)) 0
  = <["password" := VStr (hashPassword (js "secret"))]> alice.
Proof.
  intros w.
  apply (addUser_overwrites_password_in_place browser w 0 (js "secret"));
    vm_compute; reflexivity.
Defined.

Lemma email_column_admits_exactly_witness :
  validateData browser (obj [("email", VStr (js "alice@example.org"))])
               [checked "email" false KEmail] = inr ()
  <-> email_shape (js "alice@example.org").
Proof.
  apply (email_column_admits_exactly browser
           (obj [("email", VStr (js "alice@example.org"))]) "email" false);
    vm_compute; discriminate.
Defined.

(** C7, the wording of the specification: ["a@b@c.d"] has an ['@'], a ['.'] after it and
    no white space, and is rejected; so is ["a@.b"]. *)
Lemma email_shape_as_worded_is_rejected :
  spec_email_shape (js "a@b@c.d") /\
  validateData browser (obj [("email", VStr (js "a@b@c.d"))])
               [checked "email" false KEmail]
  = inl (Error (msg_validation ++ js "email n'est pas un email valide")) /\
  spec_email_shape (js "a@.b") /\
  validateData browser (obj [("email", VStr (js "a@.b"))])
               [checked "email" false KEmail]
  = inl (Error (msg_validation ++ js "email n'est pas un email valide")).
Proof.
  repeat split.
  - exists (js "a"), (js "b@c.d"). split; [reflexivity|]. vm_compute. tauto.
  - repeat constructor.
  - exists (js "a"), (js ".b"). split; [reflexivity|]. vm_compute. tauto.
  - repeat constructor.
Qed.

(** * Further properties of the persistence layer *)

(** ** Validation, column by column *)

Section ValidationByColumn.

Variable host : Host.

Lemma forEach_column_nil_iff (data : jsobj) (schema : list column) :
  forEach_column host data schema [] = inr []
  <-> Forall (fun c => check_column host data c [] = inr []) schema.
Proof.
  induction schema as [|c schema IH].
  - split; [constructor | reflexivity].
  - rewrite forEach_column_cons. split.
    + intros H. destruct (check_column host data c []) as [e|errors] eqn:Hc;
        [discriminate|].
      rewrite forEach_column_appends in H.
      destruct (forEach_column host data schema []) as [e|more] eqn:Hrest;
        [discriminate|].
      injection H as H. apply app_eq_nil in H as [-> ->].
      constructor; [exact Hc | now apply IH].
    + intros H. inversion H as [|? ? Hc Hrest]; subst.
      rewrite Hc. now apply IH.
Qed.

Lemma validateData_inr_iff (data : jsobj) (schema : list column) :
  validateData host data schema = inr ()
  <-> forEach_column host data schema [] = inr [].
Proof.
  unfold validateData.
  destruct (forEach_column host data schema []) as [e|[|m errors]];
    split; intros H; try discriminate; reflexivity.
Qed.

(** X1. A record passes [validateData] exactly when each column of the
    list, checked on its own, pushes no error and does not throw: the
    columns are checked independently of one another and of their order. *)
Theorem validateData_passes_iff_every_column_passes (data : jsobj)
    (schema : list column) :
  validateData host data schema = inr ()
  <-> Forall (fun c => check_column host data c [] = inr []) schema.
Proof. rewrite validateData_inr_iff. apply forEach_column_nil_iff. Qed.

(** X2. Whatever the column list and the rest of the record, a record in
    which a required column of the list is [undefined], [null] or the empty
    string does not pass. *)
Theorem validateData_rejects_blank_required (data : jsobj) (schema : list column)
    (c : column) :
  In c schema ->
  col_required c = true ->
  is_blank (get_prop data (col_name c)) = true ->
  validateData host data schema <> inr ().
Proof.
  intros Hin Hreq Hblank Hok.
  apply validateData_inr_iff, forEach_column_nil_iff in Hok.
  rewrite Forall_forall in Hok. apply list_elem_of_In in Hin. specialize (Hok c Hin).
  unfold check_column in Hok. rewrite Hreq, Hblank in Hok. cbn [andb app] in Hok.
  destruct (get_prop data (col_name c)) as [| | | |s]; try discriminate.
  destruct s; [|discriminate].
  destruct (col_validation c) as [[]|]; cbn [typeof] in Hok; try discriminate.
  - destruct (col_options c) as [o|]; [|discriminate].
    destruct (includes o _); discriminate.
  - destruct (Date_parse_isNaN host _); discriminate.
Qed.

Lemma check_required_string (data : jsobj) (n : string) :
  check_column host data (checked n true KString) [] = inr []
  <-> exists s, get_prop data n = VStr s /\ s <> [].
Proof.
  unfold check_column. cbn [col_name col_validation col_required checked andb].
  destruct (get_prop data n) as [| | | |s]; cbn.
  1-4: split; [discriminate | intros (s & H & _); discriminate].
  destruct s as [|c s]; cbn.
  - split; [discriminate | intros (s & [= <-] & H); congruence].
  - split; [intros _; eexists; split; [reflexivity | discriminate] | reflexivity].
Qed.

Lemma check_optional_string (data : jsobj) (n : string) :
  check_column host data (checked n false KString) [] = inr []
  <-> get_prop data n = VUndefined \/ get_prop data n = VNull
      \/ exists s, get_prop data n = VStr s.
Proof.
  unfold check_column. cbn [col_name col_validation col_required checked andb].
  destruct (get_prop data n) as [| | | |s]; cbn; split; intros H; eauto;
    try discriminate;
    destruct H as [H | [H | (s' & H)]]; discriminate.
Qed.

Lemma check_required_number (data : jsobj) (n : string) :
  check_column host data (checked n true KNumber) [] = inr []
  <-> exists z, get_prop data n = VNum z.
Proof.
  unfold check_column. cbn [col_name col_validation col_required checked andb].
  destruct (get_prop data n) as [| | | |s]; cbn; split; intros H; eauto;
    try discriminate; try (destruct H as (z' & H); discriminate).
  destruct s; discriminate.
Qed.

Lemma check_optional_email (data : jsobj) (n : string) :
  check_column host data (checked n false KEmail) [] = inr []
  <-> get_prop data n = VUndefined \/ get_prop data n = VNull
      \/ email_shape (ToString (get_prop data n)).
Proof.
  rewrite <- emailRegex_spec.
  unfold check_column. cbn [col_name col_validation col_required checked andb].
  destruct (get_prop data n) as [| | | |s] eqn:Hv; cbn [app];
    try (split; intros H; eauto; reflexivity).
  all: destruct (Regex.test emailRegex _) eqn:Ht; split; intros H; eauto;
    try discriminate; try reflexivity;
    destruct H as [H | [H | H]]; discriminate.
Qed.

(** X3. [addUser] lets a record through validation exactly when its
    [username] and its [password] are strings that are not empty, its
    [role] is absent ([undefined] or [null]) or a string, and its [email]
    is absent or has the shape [emailRegex] accepts. An [email] given as
    the empty string is not absent and is rejected. *)
Theorem addUser_schema_accepts_iff (data : jsobj) :
  validateData host data addUser_schema = inr ()
  <-> (exists u, get_prop data "username" = VStr u /\ u <> []) /\
      (exists p, get_prop data "password" = VStr p /\ p <> []) /\
      (get_prop data "role" = VUndefined \/ get_prop data "role" = VNull
       \/ exists r, get_prop data "role" = VStr r) /\
      (get_prop data "email" = VUndefined \/ get_prop data "email" = VNull
       \/ email_shape (ToString (get_prop data "email"))).
Proof.
  rewrite validateData_inr_iff, forEach_column_nil_iff. unfold addUser_schema.
  rewrite !Forall_cons_iff, check_required_string, check_required_string,
    check_optional_string, check_optional_email.
  split; [intros (? & ? & ? & ? & _) | intros (? & ? & ? & ?)]; repeat split; auto.
Qed.

(** X4. [addActionCorrective] lets a record through validation exactly
    when [description] and [responsable] are strings that are not empty and
    [delai] and [id_nc] are numbers (zero included). *)
Theorem addActionCorrective_schema_accepts_iff (data : jsobj) :
  validateData host data addActionCorrective_schema = inr ()
  <-> (exists s, get_prop data "description" = VStr s /\ s <> []) /\
      (exists s, get_prop data "responsable" = VStr s /\ s <> []) /\
      (exists z, get_prop data "delai" = VNum z) /\
      (exists z, get_prop data "id_nc" = VNum z).
Proof.
  rewrite validateData_inr_iff, forEach_column_nil_iff.
  unfold addActionCorrective_schema.
  rewrite !Forall_cons_iff, check_required_string, check_required_string,
    check_required_number, check_required_number.
  split; [intros (? & ? & ? & ? & _) | intros (? & ? & ? & ?)]; repeat split; auto.
Qed.

End ValidationByColumn.

(** ** The digest string *)

(** X5. For every password, [hashPassword] gives a string of exactly 64
    code units, each a lower-case hexadecimal digit. *)
Theorem hashPassword_is_64_hex_digits (password : jsstring) :
  length (hashPassword password) = 64%nat /\
  Forall (fun c => is_hex_digit c = true) (hashPassword password).
Proof. split; [apply hashPassword_length | apply hashPassword_hex]. Qed.

Lemma hex_value_hex_digit (d : N) : d < 16 -> hex_value (hex_digit d) = d.
Proof.
  intros Hd. unfold hex_value, hex_digit.
  destruct (N.ltb_spec d 10).
  - destruct (N.ltb_spec (48 + d) 58); lia.
  - destruct (N.ltb_spec (87 + d) 58); lia.
Qed.

Lemma unhex_byte (b : N) (rest : jsstring) :
  b < 256 -> unhex (padStart2 (toString16 b) ++ rest) = b :: unhex rest.
Proof.
  intros Hb. unfold toString16.
  destruct (N.ltb_spec b 16); cbn [padStart2 app unhex]; f_equal.
  - rewrite hex_value_hex_digit by exact H. reflexivity.
  - rewrite !hex_value_hex_digit.
    + symmetry. apply N.div_mod. discriminate.
    + apply N.mod_lt. discriminate.
    + apply N.Div0.div_lt_upper_bound. lia.
Qed.

Lemma unhex_bytes (bytes : list N) :
  Forall (fun b => b < 256) bytes ->
  unhex (concat (map (fun b => padStart2 (toString16 b)) bytes)) = bytes.
Proof.
  induction 1 as [|b bytes Hb _ IH]; [reflexivity|].
  cbn [map concat]. rewrite unhex_byte by exact Hb. now rewrite IH.
Qed.

(** X6. The hexadecimal writing loses nothing: reading the digits of the
    digest string back, two by two, gives the 32 bytes of the SHA-256
    digest of the UTF-8 encoding of the password. The padding to two digits
    is what makes this hold for bytes below 16. *)
Theorem hashPassword_unhex (password : jsstring) :
  unhex (hashPassword password) = SHA256.digest (TextEncoder_encode password).
Proof. unfold hashPassword. cbv zeta. apply unhex_bytes, digest_bounded. Qed.

(** ** Opening the database *)


Lemma createTables_not_Return (w : World) : fst (createTables w) <> Return ().
Proof.
  destruct (createTables_throws w) as (e & w' & H). rewrite H. discriminate.
Qed.

Lemma initDatabase_not_Return (host : Host) (w : World) :
  fst (initDatabase host w) <> Return ().
Proof.
  unfold initDatabase, try_catch.
  destruct (negb (window_indexedDB host)).
  - cbn. discriminate.
  - unfold bind at 1, set_initializationPromise at 1. unfold bind at 1.
    match goal with
    | |- context [handle_all ?evs ?p ?w0] => destruct (handle_all evs p w0) as [[p'|e|] w1]
    end.
    + destruct p' as [| |e].
      * cbn. discriminate.
      * pose proof (createTables_not_Return w1) as Hc.
        destruct (createTables w1) as [[[]|e|] w2]; cbn in *; [congruence|discriminate..].
      * cbn. discriminate.
    + cbn. discriminate.
    + cbn. discriminate.
Qed.

(** X8. [initDatabase] never resolves, on any host and in any state: it
    rejects or stays pending, because after a successful open it awaits
    [createTables], which throws. *)
Theorem initDatabase_never_resolves (host : Host) (w : World) :
  fst (initDatabase host w) <> Return ().
Proof. apply initDatabase_not_Return. Qed.

Lemma bind_never_returns {A B} (m : M A) (f : A -> M B) (w : World) (b : B) :
  (forall a, fst (m w) <> Return a) -> fst (bind m f w) <> Return b.
Proof.
  intros H. unfold bind. destruct (m w) as [[a|e|] w'];
    [now specialize (H a) | discriminate..].
Qed.

Lemma bind_short_circuit {A B} (m : M A) (f g : A -> M B) (w : World) :
  (forall a, fst (m w) <> Return a) -> bind m f w = bind m g w.
Proof.
  intros H. unfold bind. destruct (m w) as [[a|e|] w'];
    [now specialize (H a) | reflexivity..].
Qed.

(** X9. With a handle but no initialisation promise, [executeTransaction]
    never runs the operation it was given: the outcome is a rejection or a
    promise that stays pending, and it is the same whatever the operation. *)
Theorem executeTransaction_unset_promise_never_runs (host : Host) {A}
    (storeNames : list string) (m : mode) (operation other : Transaction -> M A)
    (w : World) (a : A) :
  initializationPromise (this w) = false ->
  fst (executeTransaction host storeNames m operation w) <> Return a /\
  executeTransaction host storeNames m operation w
  = executeTransaction host storeNames m other w.
Proof.
  intros Hp. unfold executeTransaction.
  destruct (db (this w)); [|split; [discriminate | reflexivity]].
  rewrite Hp.
  assert (Hi : forall u, fst (initDatabase host w) <> Return u).
  { intros []. apply initDatabase_not_Return. }
  split.
  - now apply bind_never_returns.
  - now apply bind_short_circuit.
Qed.

(** X10. On a host without [window.indexedDB] the constructor leaves a
    manager without handle and with one error line on the console, and the
    reads then reject with the not-initialised error and change nothing. *)
Theorem without_indexedDB_reads_reject (host : Host) (username : jsval) :
  window_indexedDB host = false ->
  let w := new_DatabaseManager host in
  db (this w) = None /\
  initializationPromise (this w) = false /\
  console w = [ERROR "DB_INITIALIZATION_FAILED" (Error msg_no_indexedDB)] /\
  getUser host username w = (Throw (Error msg_not_initialised), w) /\
  getNonConformites host w = (Throw (Error msg_not_initialised), w).
Proof.
  intros Hno w.
  assert (Hw : w = logged (ERROR "DB_INITIALIZATION_FAILED" (Error msg_no_indexedDB))
                     (blank None false ∅)).
  { subst w. unfold new_DatabaseManager, initDatabase, try_catch. rewrite Hno.
    reflexivity. }
  rewrite Hw. repeat split.
Qed.

(** ** Stores and records *)

Lemma find_store_name (d : IDBDatabase) (n : string) (st : ObjectStore) :
  find_store d n = Some st -> os_name st = n.
Proof.
  unfold find_store. intros H. apply find_some in H as [_ H].
  now apply String.eqb_eq.
Qed.

Lemma find_store_replace (d : IDBDatabase) (n : string) (st st' : ObjectStore) :
  find_store d n = Some st -> os_name st' = n ->
  find_store (replace_store d st') n = Some st'.
Proof.
  unfold find_store, replace_store. cbn [objectStores]. intros H Hn. subst n.
  induction (objectStores d) as [|s l IH]; [discriminate|].
  cbn [find map] in *.
  destruct (String.eqb (os_name s) (os_name st')) eqn:Hs.
  - cbn [find]. rewrite String.eqb_refl. reflexivity.
  - cbn [find]. rewrite Hs. now apply IH.
Qed.

Lemma find_store_replace_other (d : IDBDatabase) (m : string) (st' : ObjectStore) :
  m <> os_name st' -> find_store (replace_store d st') m = find_store d m.
Proof.
  unfold find_store, replace_store. cbn [objectStores]. intros Hm.
  induction (objectStores d) as [|s l IH]; [reflexivity|].
  cbn [find map]. destruct (String.eqb (os_name s) (os_name st')) eqn:Hs.
  - apply String.eqb_eq in Hs.
    assert (Hf : String.eqb (os_name st') m = false).
    { apply String.eqb_neq. congruence. }
    rewrite Hf. rewrite Hs, Hf. exact IH.
  - destruct (String.eqb (os_name s) m); [reflexivity | exact IH].
Qed.

Lemma existsb_false_In {A} (f : A -> bool) (l : list A) :
  existsb f l = false -> forall x, In x l -> f x = false.
Proof.
  induction l as [|y l IH]; [intros _ x []|].
  cbn [existsb]. intros H x [<-|Hx].
  - now apply orb_false_iff in H.
  - apply orb_false_iff in H as [_ H]. now apply IH.
Qed.

Lemma key_eqb_refl (k : jsval) : key_eqb k k = true.
Proof. unfold key_eqb. now apply bool_decide_eq_true. Qed.

Lemma In_insert_record_old (k : jsval) (v : jsobj) (l : list (jsval * jsobj))
    (r : jsval * jsobj) :
  In r l -> In r (insert_record k v l).
Proof.
  induction l as [|[k' v'] l IH]; [intros []|].
  cbn [insert_record]. destruct (key_ltb k k').
  - intros H. now right.
  - intros [H|H]; [now left | right; now apply IH].
Qed.

Lemma In_insert_record_new (k : jsval) (v : jsobj) (l : list (jsval * jsobj)) :
  In (k, v) (insert_record k v l).
Proof.
  induction l as [|[k' v'] l IH]; [now left|].
  cbn [insert_record]. destruct (key_ltb k k'); [now left | now right].
Qed.

Lemma In_insert_record_inv (k : jsval) (v : jsobj) (l : list (jsval * jsobj))
    (r : jsval * jsobj) :
  In r (insert_record k v l) -> r = (k, v) \/ In r l.
Proof.
  induction l as [|[k' v'] l IH]; cbn [insert_record].
  - intros [H|[]]. now left.
  - destruct (key_ltb k k').
    + intros [H|H]; [now left | now right].
    + intros [H|H]; [right; now left|].
      destruct (IH H) as [?|?]; [now left | right; now right].
Qed.

Lemma length_insert_record (k : jsval) (v : jsobj) (l : list (jsval * jsobj)) :
  length (insert_record k v l) = S (length l).
Proof.
  induction l as [|[k' v'] l IH]; [reflexivity|].
  cbn [insert_record]. destruct (key_ltb k k'); cbn [length]; [reflexivity|].
  now rewrite IH.
Qed.

Lemma has_key_insert_record (k : jsval) (v : jsobj) (l : list (jsval * jsobj)) :
  has_key k (insert_record k v l) = true.
Proof.
  unfold has_key. apply existsb_exists. exists (k, v).
  split; [apply In_insert_record_new | apply key_eqb_refl].
Qed.

Lemma find_insert_record (f : jsval * jsobj -> bool) (k : jsval) (v : jsobj)
    (l : list (jsval * jsobj)) :
  f (k, v) = true -> (forall r, In r l -> f r = false) ->
  find f (insert_record k v l) = Some (k, v).
Proof.
  intros Hf. induction l as [|[k' v'] l IH]; intros Hl.
  - cbn. now rewrite Hf.
  - cbn [insert_record]. destruct (key_ltb k k'); cbn [find].
    + now rewrite Hf.
    + rewrite (Hl (k', v')) by now left. apply IH. intros r Hr. apply Hl. now right.
Qed.

Lemma store_record_success (st st' : ObjectStore) (k k' : jsval) (v : jsobj) (gen : Z) :
  store_record st k v gen = inr (k', st') ->
  k' = k /\
  has_key k (os_records st) = false /\
  existsb (fun ix => violates_index ix v (os_records st)) (os_indexes st) = false /\
  os_name st' = os_name st /\ os_keyPath st' = os_keyPath st /\
  os_indexes st' = os_indexes st /\
  os_records st' = insert_record k v (os_records st).
Proof.
  unfold store_record.
  destruct (has_key _ _) eqn:Hh; [discriminate|].
  destruct (existsb _ _) eqn:Hv; [discriminate|].
  intros [= <- <-]. repeat split; assumption.
Qed.

Lemma extract_key_valid (value : jsobj) (p : string) (k : jsval) :
  extract_key value p = KKey k -> value !! p = Some k /\ is_valid_key k = true.
Proof.
  unfold extract_key. destruct (value !! p) as [v|]; [|discriminate].
  destruct v; cbn; try discriminate; intros [= <-]; split; reflexivity.
Qed.

(** What a successful [store.add] did. *)
Lemma idb_add_success (m : mode) (st st' : ObjectStore) (value : jsobj) (k : jsval) :
  idb_add m st value = inr (k, st') ->
  exists stored,
    (stored = value /\ extract_key value (os_keyPath st) = KKey k
     \/ stored = <[os_keyPath st := k]> value /\
        extract_key value (os_keyPath st) = KFailure /\
        os_autoIncrement st = true) /\
    is_valid_key k = true /\
    has_key k (os_records st) = false /\
    existsb (fun ix => violates_index ix stored (os_records st)) (os_indexes st) = false /\
    os_name st' = os_name st /\ os_keyPath st' = os_keyPath st /\
    os_indexes st' = os_indexes st /\
    os_records st' = insert_record k stored (os_records st).
Proof.
  unfold idb_add. destruct m; [discriminate| |].
  all: destruct (extract_key value (os_keyPath st)) as [| |k0] eqn:Hk;
    [ | discriminate | ].
  1, 3: destruct (os_autoIncrement st) eqn:Ha; [|discriminate];
    destruct (max_generator <? os_generator st)%Z; [discriminate|];
    intros H; apply store_record_success in H as (-> & Hh & Hv & Hrest);
    eexists; split; [right; repeat split; reflexivity|];
    split; [reflexivity|]; split; [exact Hh|]; split; [exact Hv | exact Hrest].
  all: intros H; apply store_record_success in H as (-> & Hh & Hv & Hrest);
    exists value; split; [left; split; reflexivity|];
    split; [exact (proj2 (extract_key_valid _ _ _ Hk))|];
    split; [exact Hh|]; split; [exact Hv | exact Hrest].
Qed.


(** ** The adds and the reads on a connection *)

Section Stores.

Variable host : Host.

Lemma idb_transaction_usable (d : IDBDatabase) (n : string) (m : mode)
    (st : ObjectStore) :
  upgrading d = false -> closed d = false -> find_store d n = Some st ->
  m <> versionchange ->
  idb_transaction d [n] m = inr ().
Proof.
  intros Hu Hc Hst Hm. unfold idb_transaction. rewrite Hu, Hc. cbn [forallb].
  rewrite (find_store_contains _ _ _ Hst). cbn. destruct m; congruence.
Qed.

(** The transaction of an add: either it throws and leaves the manager and
    the caller's objects as they were, or the store accepted the record. *)
Lemma add_transaction_cases (n : string) (record : nat) (w : World) :
  initializationPromise (this w) = true ->
  let r := executeTransaction host [n] readwrite
             (fun transaction =>
                let* store := objectStore transaction n in
                request_add transaction store record) w in
  (exists e, fst r = Throw e /\ this (snd r) = this w /\ heap (snd r) = heap w
             /\ (forall d st, db (this w) = Some d -> upgrading d = false ->
                   closed d = false -> find_store d n = Some st ->
                   idb_add readwrite st (object_at w record) = inl e)) \/
  (exists d st k st',
      db (this w) = Some d /\ find_store d n = Some st /\
      idb_add readwrite st (object_at w record) = inr (k, st') /\
      r = (Return k, with_db (replace_store d st') (with_transaction [n] readwrite w))).
Proof.
  intros Hp r.
  destruct (db (this w)) as [d|] eqn:Hd.
  2: { assert (E : r = (Throw (Error msg_not_initialised), w)).
       { subst r. unfold executeTransaction. rewrite Hd. reflexivity. }
       rewrite E. left. eexists. repeat split. intros; discriminate. }
  destruct (idb_transaction d [n] readwrite) as [e|[]] eqn:Ht.
  { assert (E : r = (Throw e, logged (ERROR "TRANSACTION_FAILED" e) w)).
    { subst r. unfold executeTransaction. rewrite Hd, Hp.
      unfold bind, ret, try_catch, db_transaction. rewrite Hd, Ht. reflexivity. }
    rewrite E. left. eexists. repeat split.
    intros d0 st [= <-] Hu Hc Hst.
    rewrite (idb_transaction_usable _ _ _ _ Hu Hc Hst) in Ht by discriminate.
    discriminate. }
  pose proof (executeTransaction_ready host [n] readwrite
                (fun transaction =>
                   let* store := objectStore transaction n in
                   request_add transaction store record) w d Hd Hp Ht) as E.
  fold r in E. rewrite E. clear E r.
  unfold try_catch, objectStore, request_add, the_db, read_object, lift, bind, ret.
  cbn [this with_transaction tx_scope tx_mode contains existsb].
  rewrite Hd, String.eqb_refl. cbn [orb].
  destruct (find_store d n) as [st|] eqn:Hst.
  2: { left. eexists. repeat split. intros d0 st [= <-]. congruence. }
  change (object_at (with_transaction [n] readwrite w) record)
    with (object_at w record).
  destruct (idb_add readwrite st (object_at w record)) as [e|[k st']] eqn:Ha.
  - left. eexists. repeat split. intros d0 st0 [= <-] _ _ Hst0. congruence.
  - right. exists d, st, k, st'. repeat split; try assumption.
    cbn [this with_transaction]. rewrite Hd. reflexivity.
Qed.

Lemma try_catch_log {A} (m : M A) (event : string) (w : World) :
  try_catch m (fun error => let* _ := logError event error in throw error) w
  = match m w with
    | (Throw e, w') => (Throw e, logged (ERROR event e) w')
    | r => r
    end.
Proof. unfold try_catch. destruct (m w) as [[a|e|] w']; reflexivity. Qed.

Lemma addActionCorrective_cases (action : nat) (w : World) :
  initializationPromise (this w) = true ->
  (exists e w', addActionCorrective host action w = (Throw e, w') /\
                this w' = this w /\ heap w' = heap w) \/
  (exists d st k st',
      db (this w) = Some d /\ find_store d "actions_correctives" = Some st /\
      idb_add readwrite st (object_at w action) = inr (k, st') /\
      addActionCorrective host action w
      = (Return k, with_db (replace_store d st')
                     (with_transaction ["actions_correctives"] readwrite w))).
Proof.
  intros Hp.
  destruct (validateData host (object_at w action) addActionCorrective_schema)
    as [e|[]] eqn:Hv.
  { left. rewrite (addActionCorrective_validation_failure host w action e Hv).
    eexists _, _. repeat split. }
  assert (E : addActionCorrective host action w
              = match executeTransaction host ["actions_correctives"] readwrite
                        (fun transaction =>
                           let* store := objectStore transaction "actions_correctives" in
                           request_add transaction store action) w with
                | (Throw e, w') => (Throw e, logged (ERROR "ACTION_ADD_FAILED" e) w')
                | r => r
                end).
  { unfold addActionCorrective. rewrite try_catch_log.
    unfold bind at 1, read_object at 1. rewrite Hv. reflexivity. }
  rewrite E. clear E.
  destruct (add_transaction_cases "actions_correctives" action w Hp)
    as [(e & Hf & Ht & Hh & _) | (d & st & k & st' & Hd & Hst & Ha & Hr)].
  - left.
    destruct (executeTransaction host ["actions_correctives"] readwrite _ w)
      as [o w1]. cbn [fst snd] in *. subst o.
    eexists _, _. split; [reflexivity|]. split; [exact Ht | exact Hh].
  - right. exists d, st, k, st'. repeat split; try assumption.
    now rewrite Hr.
Qed.

Lemma addUser_cases (user : nat) (w : World) :
  initializationPromise (this w) = true ->
  (exists e w',
      addUser host user w = (Throw e, w') /\ this w' = this w /\
      (forall p d st,
          validateData host (object_at w user) addUser_schema = inr () ->
          get_prop (object_at w user) "password" = VStr p ->
          db (this w) = Some d -> upgrading d = false -> closed d = false ->
          find_store d "users" = Some st ->
          idb_add readwrite st
            (<["password" := VStr (hashPassword p)]> (object_at w user)) = inl e)) \/
  (exists d st k st' p w',
      validateData host (object_at w user) addUser_schema = inr () /\
      get_prop (object_at w user) "password" = VStr p /\
      db (this w) = Some d /\ find_store d "users" = Some st /\
      idb_add readwrite st
        (<["password" := VStr (hashPassword p)]> (object_at w user)) = inr (k, st') /\
      addUser host user w = (Return k, w') /\
      this w' = this (with_db (replace_store d st') w)).
Proof.
  intros Hp.
  destruct (validateData host (object_at w user) addUser_schema) as [e|[]] eqn:Hv.
  { left. rewrite (addUser_validation_failure host w user e Hv).
    eexists _, _. repeat split. intros; discriminate. }
  destruct (addUser_schema_password host _ Hv) as (p & Hpw & Hne).
  destruct p as [|c p]; [congruence|].
  set (w1 := snd (write_prop user "password" (VStr (hashPassword (c :: p))) w)).
  assert (E : addUser host user w
              = match executeTransaction host ["users"] readwrite
                        (fun transaction =>
                           let* store := objectStore transaction "users" in
                           request_add transaction store user) w1 with
                | (Throw e, w') => (Throw e, logged (ERROR "USER_ADD_FAILED" e) w')
                | r => r
                end).
  { unfold addUser. rewrite try_catch_log.
    unfold bind at 1, read_object at 1. rewrite Hv.
    unfold bind at 1, lift at 1, ret at 1. rewrite Hpw. reflexivity. }
  rewrite E. clear E.
  assert (Ho : object_at w1 user
               = <["password" := VStr (hashPassword (c :: p))]> (object_at w user)).
  { unfold object_at at 1. subst w1. cbn [heap write_prop snd].
    now rewrite lookup_insert_eq. }
  assert (Hp1 : initializationPromise (this w1) = true) by exact Hp.
  destruct (add_transaction_cases "users" user w1 Hp1)
    as [(e & Hf & Ht & Hh & He) | (d & st & k & st' & Hd & Hst & Ha & Hr)].
  - left.
    destruct (executeTransaction host ["users"] readwrite _ w1) as [o w2].
    cbn [fst snd] in *. subst o.
    eexists _, _. split; [reflexivity|]. split; [exact Ht|].
    intros p0 d st _ Hp0 Hd Hu Hc Hst. rewrite Hpw in Hp0. injection Hp0 as <-.
    rewrite <- Ho. now apply (He d).
  - right. rewrite Ho in Ha. exists d, st, k, st', (c :: p).
    exists (with_db (replace_store d st') (with_transaction ["users"] readwrite w1)).
    repeat split; try assumption. now rewrite Hr.
Qed.

(** X11. With the initialisation promise set, an add that rejects leaves
    the manager and its database exactly as they were: no record is
    written by [addUser], [addNonConformite] or [addActionCorrective] when
    the call throws, whatever the reason. *)
Theorem rejected_add_leaves_the_database (record : nat) (w : World) :
  initializationPromise (this w) = true ->
  (forall e w', addUser host record w = (Throw e, w') -> this w' = this w) /\
  (forall e w', addNonConformite host record w = (Throw e, w') -> this w' = this w) /\
  (forall e w', addActionCorrective host record w = (Throw e, w') -> this w' = this w).
Proof.
  intros Hp. repeat split; intros e w' H.
  - destruct (addUser_cases record w Hp)
      as [(e0 & w0 & H0 & Ht & _) | (d & st & k & st' & p & w0 & _ & _ & _ & _ & _ & H0 & _)];
      congruence.
  - pose proof (addNonConformite_schema_never_passes host (object_at w record)) as Hv.
    destruct (validateData host (object_at w record) addNonConformite_schema)
      as [e0|[]] eqn:He; [|congruence].
    rewrite (addNonConformite_validation_failure host w record e0 He) in H.
    injection H as _ <-. reflexivity.
  - destruct (addActionCorrective_cases record w Hp)
      as [(e0 & w0 & H0 & Ht & _) | (d & st & k & st' & _ & _ & _ & H0)];
      congruence.
Qed.

Lemma added_one_intro (n : string) (k : jsval) (w w' : World) (d : IDBDatabase)
    (st st' : ObjectStore) (v : jsobj) :
  db (this w) = Some d -> find_store d n = Some st ->
  idb_add readwrite st v = inr (k, st') ->
  db (this w') = Some (replace_store d st') ->
  added_one n k w w'.
Proof.
  intros Hd Hst Ha Hd'.
  destruct (idb_add_success _ _ _ _ _ Ha)
    as (stored & _ & _ & Hfresh & _ & Hname & _ & _ & Hrec).
  pose proof (find_store_name _ _ _ Hst) as Hn.
  exists d, (replace_store d st'), st, st'. repeat split; try assumption.
  - apply (find_store_replace _ _ _ _ Hst). congruence.
  - rewrite Hrec. apply has_key_insert_record.
  - intros r Hr. rewrite Hrec. now apply In_insert_record_old.
  - rewrite Hrec. apply length_insert_record.
  - intros other Ho. apply find_store_replace_other. congruence.
Qed.

(** X12. With the initialisation promise set, an add that resolves with
    the key [k] has put exactly one record into its store, under [k], a
    key the store did not hold: the records that were there are all still
    there (nothing is overwritten), and the other stores are untouched. *)
Theorem resolved_add_inserts_one_record (record : nat) (w : World) :
  initializationPromise (this w) = true ->
  (forall k w', addUser host record w = (Return k, w') ->
                added_one "users" k w w') /\
  (forall k w', addActionCorrective host record w = (Return k, w') ->
                added_one "actions_correctives" k w w').
Proof.
  intros Hp. split; intros k w' H.
  - destruct (addUser_cases record w Hp)
      as [(e0 & w0 & H0 & _) | (d & st & k0 & st' & p & w0 & _ & _ & Hd & Hst & Ha & H0 & Ht)];
      [congruence|].
    rewrite H0 in H. injection H as <- <-.
    apply (added_one_intro _ _ _ _ d st st' _ Hd Hst Ha). now rewrite Ht.
  - destruct (addActionCorrective_cases record w Hp)
      as [(e0 & w0 & H0 & _) | (d & st & k0 & st' & Hd & Hst & Ha & H0)];
      [congruence|].
    rewrite H0 in H. injection H as <- <-.
    now apply (added_one_intro _ _ _ _ d st st' _ Hd Hst Ha).
Qed.

(** X13. [addActionCorrective] stores the record as the caller gave it:
    the record found under the returned key has the caller's value at every
    property other than the key path and nothing more, so a column the
    caller left out (such as [statut], for which the table declares a
    default) is left out of the stored record too. *)
Theorem addActionCorrective_stores_the_record_as_given (action : nat) (w w' : World)
    (k : jsval) :
  initializationPromise (this w) = true ->
  addActionCorrective host action w = (Return k, w') ->
  exists d' st' stored,
    db (this w') = Some d' /\
    find_store d' "actions_correctives" = Some st' /\
    In (k, stored) (os_records st') /\
    stored !! os_keyPath st' = Some k /\
    (forall f, f <> os_keyPath st' -> stored !! f = object_at w action !! f).
Proof.
  intros Hp H.
  destruct (addActionCorrective_cases action w Hp)
    as [(e0 & w0 & H0 & _) | (d & st & k0 & st' & Hd & Hst & Ha & H0)];
    [congruence|].
  rewrite H0 in H. injection H as <- <-.
  destruct (idb_add_success _ _ _ _ _ Ha)
    as (stored & Hstored & _ & _ & _ & Hname & Hkp & _ & Hrec).
  exists (replace_store d st'), st', stored. repeat split.
  - apply (find_store_replace _ _ _ _ Hst).
    rewrite Hname. now apply find_store_name in Hst.
  - rewrite Hrec. apply In_insert_record_new.
  - rewrite Hkp. destruct Hstored as [[-> Hk] | (-> & _ & _)].
    + now apply extract_key_valid in Hk.
    + apply lookup_insert_eq.
  - intros f Hf. rewrite Hkp in Hf.
    destruct Hstored as [[-> _] | (-> & _ & _)]; [reflexivity|].
    now apply lookup_insert_ne.
Qed.

Lemma find_store_None_contains (d : IDBDatabase) (n : string) :
  find_store d n = None -> contains (objectStoreNames d) n = false.
Proof.
  unfold objectStoreNames. rewrite contains_sort_names.
  unfold find_store, contains.
  induction (objectStores d) as [|s l IH]; [reflexivity|].
  cbn [find map existsb]. rewrite (String.eqb_sym n).
  destruct (String.eqb (os_name s) n); [discriminate | exact IH].
Qed.

(** X14. On a usable connection that lacks the store an operation names,
    [executeTransaction] rejects with [NotFoundError] before the operation
    is run, logs the failure, and leaves everything else as it was. *)
Theorem executeTransaction_missing_store {A} (n : string) (m : mode)
    (operation : Transaction -> M A) (w : World) (d : IDBDatabase) :
  usable w d ->
  find_store d n = None ->
  executeTransaction host [n] m operation w
  = (Throw (DOMException "NotFoundError"),
     logged (ERROR "TRANSACTION_FAILED" (DOMException "NotFoundError")) w).
Proof.
  intros (Hd & Hp & Hu & Hc) Hn. unfold executeTransaction. rewrite Hd, Hp.
  unfold bind, ret, try_catch, db_transaction. rewrite Hd.
  unfold idb_transaction. rewrite Hu, Hc. cbn [forallb].
  rewrite (find_store_None_contains _ _ Hn). reflexivity.
Qed.

(** [getUser] on a usable connection: the first record of the [username]
    index that has the key asked for, if there is one. *)
Lemma getUser_usable (w : World) (d : IDBDatabase) (st : ObjectStore) (ix : Index)
    (name : jsstring) :
  usable w d ->
  find_store d "users" = Some st ->
  find (fun i => String.eqb (ix_name i) "username") (os_indexes st) = Some ix ->
  getUser host (VStr name) w
  = (Return (snd <$> find (fun r => match extract_key (snd r) (ix_keyPath ix) with
                                    | KKey k' => key_eqb k' (VStr name)
                                    | _ => false
                                    end) (os_records st)),
     with_transaction ["users"] readonly w).
Proof.
  intros (Hd & Hp & Hu & Hc) Hst Hix.
  assert (Ht : idb_transaction d ["users"] readonly = inr ()).
  { now apply (idb_transaction_usable _ _ _ st). }
  unfold getUser. rewrite (executeTransaction_ready _ _ _ _ _ _ Hd Hp Ht).
  unfold try_catch, objectStore, the_db, lift, bind, ret.
  cbn [this with_transaction tx_scope contains existsb String.eqb Ascii.eqb
       Bool.eqb orb].
  rewrite Hd, Hst. unfold idb_index_get. rewrite Hix. reflexivity.
Qed.

Lemma extract_key_username (o : jsobj) (name : jsstring) :
  (match extract_key o "username" with
   | KKey k' => key_eqb k' (VStr name)
   | _ => false
   end) = true
  <-> o !! "username" = Some (VStr name).
Proof.
  unfold extract_key, key_eqb. destruct (o !! "username") as [v|].
  - destruct v; cbn [is_valid_key]; rewrite ?bool_decide_eq_true;
      split; intros H; try discriminate; try congruence.
  - split; discriminate.
Qed.


(** X16. On a usable connection whose [users] store has its [username]
    index, a record [getUser] resolves with is a record of the store and its
    [username] is the string that was asked for. *)
Theorem getUser_returns_a_stored_record_of_that_name (w w' : World)
    (d : IDBDatabase) (st : ObjectStore) (ix : Index) (name : jsstring)
    (o : jsobj) :
  usable w d ->
  find_store d "users" = Some st ->
  find (fun i => String.eqb (ix_name i) "username") (os_indexes st) = Some ix ->
  ix_keyPath ix = "username" ->
  getUser host (VStr name) w = (Return (Some o), w') ->
  (exists k, In (k, o) (os_records st)) /\
  o !! "username" = Some (VStr name) /\
  this w' = this w /\ heap w' = heap w.
Proof.
  intros Hu Hst Hix Hkp H.
  rewrite (getUser_usable _ _ _ _ _ Hu Hst Hix), Hkp in H.
  injection H as H <-.
  destruct (find _ (os_records st)) as [[k o']|] eqn:Hf; [|discriminate].
  injection H as ->. apply find_some in Hf as [Hin Hm]. cbn [snd] in Hm.
  repeat split; [eauto | now apply extract_key_username].
Qed.

(** X17. Round trip. On a usable connection whose [users] store has the
    unique [username] index, after [addUser] resolved with the key [k],
    [getUser] of the record's user name resolves with the record that was
    stored: it has that user name, the key [k] at the key path, the digest
    string of the password in place of the password, and the caller's
    values everywhere else. *)
Theorem addUser_then_getUser (w w' : World) (d : IDBDatabase) (st : ObjectStore)
    (user : nat) (name : jsstring) (k : jsval) :
  usable w d ->
  find_store d "users" = Some st ->
  has_username_index st ->
  get_prop (object_at w user) "username" = VStr name ->
  addUser host user w = (Return k, w') ->
  exists o p,
    getUser host (VStr name) w'
    = (Return (Some o), with_transaction ["users"] readonly w') /\
    get_prop (object_at w user) "password" = VStr p /\
    o !! "password" = Some (VStr (hashPassword p)) /\
    o !! "username" = Some (VStr name) /\
    o !! os_keyPath st = Some k /\
    (forall f, f <> "password" -> f <> os_keyPath st ->
               o !! f = object_at w user !! f).
Proof.
  intros Hus Hst (ix & Hix & Hkp & Huniq) Hname H.
  pose proof Hus as (Hd & Hp & Hu & Hc).
  destruct (addUser_cases user w Hp)
    as [(e0 & w0 & H0 & _)
       | (d0 & st0 & k0 & st' & p & w0 & _ & Hpw & Hd0 & Hst0 & Ha & H0 & Ht)];
    [congruence|].
  rewrite H0 in H. injection H as -> ->.
  assert (d0 = d) by congruence. subst d0.
  assert (st0 = st) by congruence. subst st0.
  set (hashed := <["password" := VStr (hashPassword p)]> (object_at w user)) in *.
  assert (Hhn : hashed !! "username" = Some (VStr name)).
  { subst hashed. rewrite lookup_insert_ne by discriminate.
    unfold get_prop in Hname. destruct (object_at w user !! "username"); congruence. }
  assert (Hhp : hashed !! "password" = Some (VStr (hashPassword p))).
  { subst hashed. apply lookup_insert_eq. }
  destruct (idb_add_success _ _ _ _ _ Ha)
    as (stored & Hstored & _ & _ & Hviol & Hn' & _ & Hix' & Hrec).
  assert (Hsn : stored !! "username" = Some (VStr name)
                /\ stored !! "password" = Some (VStr (hashPassword p))
                /\ stored !! os_keyPath st = Some k
                /\ (forall f, f <> os_keyPath st -> stored !! f = hashed !! f)).
  { destruct Hstored as [[-> Hk] | (-> & Hk & _)].
    - repeat split; try assumption. now apply extract_key_valid in Hk.
    - assert (Hne : forall f v, hashed !! f = Some (VStr v) -> os_keyPath st <> f).
      { intros f v Hf E. unfold extract_key in Hk. rewrite E, Hf in Hk. discriminate. }
      repeat split.
      + rewrite lookup_insert_ne; [exact Hhn | exact (Hne _ _ Hhn)].
      + rewrite lookup_insert_ne; [exact Hhp | exact (Hne _ _ Hhp)].
      + apply lookup_insert_eq.
      + intros f Hf. now apply lookup_insert_ne. }
  destruct Hsn as (Hsn & Hsp & Hsk & Hsf).
  assert (Hus' : usable w' (replace_store d st')).
  { unfold usable. rewrite Ht. cbn. now repeat split. }
  assert (Hst' : find_store (replace_store d st') "users" = Some st').
  { apply (find_store_replace _ _ _ _ Hst). rewrite Hn'.
    now apply find_store_name in Hst. }
  rewrite <- Hix' in Hix.
  rewrite (getUser_usable _ _ _ _ _ Hus' Hst' Hix), Hkp, Hrec.
  rewrite (find_insert_record _ k stored).
  - exists stored, p. repeat split; try assumption.
    intros f Hf1 Hf2. rewrite (Hsf f Hf2). subst hashed. now apply lookup_insert_ne.
  - cbn [snd]. now apply extract_key_username.
  - intros r Hr. rewrite Hix' in Hix.
    apply find_some in Hix as [Hin _].
    pose proof (existsb_false_In _ _ Hviol ix Hin) as Hv. unfold violates_index in Hv.
    rewrite Huniq, Hkp in Hv. cbn [andb] in Hv.
    unfold extract_key at 1 in Hv. rewrite Hsn in Hv. cbn [is_valid_key] in Hv.
    exact (existsb_false_In _ _ Hv r Hr).
Qed.



(** X19. [addNonConformite] rejects for every record and in every state,
    before any transaction: the world after the call is the world before it
    with the line [NC_ADD_FAILED] on the console. Without a [gravite] the
    record misses a required column; with one, the enum check reads
    [options] that the column list does not give. *)
Theorem addNonConformite_always_rejects (nc : nat) (w : World) :
  exists e,
    addNonConformite host nc w = (Throw e, logged (ERROR "NC_ADD_FAILED" e) w) /\
    (get_prop (object_at w nc) "gravite" <> VUndefined ->
     get_prop (object_at w nc) "gravite" <> VNull ->
     e = TypeError).
Proof.
  pose proof (addNonConformite_schema_never_passes host (object_at w nc)) as Hv.
  destruct (validateData host (object_at w nc) addNonConformite_schema)
    as [e|[]] eqn:He; [|congruence].
  exists e. split; [now apply addNonConformite_validation_failure|].
  intros Hu Hn. unfold validateData, addNonConformite_schema in He.
  rewrite forEach_column_cons in He.
  destruct (check_column host _ (checked "type_defaut" true KString) [])
    as [e1|errors1] eqn:H1.
  { unfold check_column in H1. cbn [col_validation checked] in H1.
    repeat match type of H1 with
           | context [match ?x with _ => _ end] => destruct x
           end; discriminate. }
  rewrite forEach_column_cons in He.
  destruct (check_column host _ (checked "poste" true KString) errors1)
    as [e2|errors2] eqn:H2.
  { unfold check_column in H2. cbn [col_validation checked] in H2.
    repeat match type of H2 with
           | context [match ?x with _ => _ end] => destruct x
           end; discriminate. }
  rewrite forEach_column_cons, (check_enum_without_options host _ _ _ _ Hu Hn) in He.
  congruence.
Qed.

End Stores.

(** ** The further properties at work *)

Ltac by_evaluation := vm_compute; reflexivity.
Ltac split_by_evaluation :=
  unfold usable; repeat match goal with |- _ /\ _ => split end; by_evaluation.

Lemma validateData_rejects_blank_required_witness :
  validateData browser scenario_B addNonConformite_schema <> inr ().
Proof.
  apply (validateData_rejects_blank_required browser scenario_B
           addNonConformite_schema (checked "gravite" true KEnum)).
  - right. right. left. reflexivity.
  - reflexivity.
  - reflexivity.
Defined.

Lemma executeTransaction_unset_promise_never_runs_witness :
  let w := blank (Some declared_db) false ∅ in
  fst (executeTransaction browser ["users"] readonly
         (fun _ => ret (VNum 1)) w) <> Return (VNum 1) /\
  executeTransaction browser ["users"] readonly (fun _ => ret (VNum 1)) w
  = executeTransaction browser ["users"] readonly (fun _ => ret (VNum 2)) w.
Proof.
  intros w.
  apply (executeTransaction_unset_promise_never_runs browser ["users"] readonly
           (fun _ => ret (VNum 1)) (fun _ => ret (VNum 2)) w (VNum 1)).
  reflexivity.
Defined.

Lemma without_indexedDB_reads_reject_witness :
  getNonConformites no_indexedDB (new_DatabaseManager no_indexedDB)
  = (Throw (Error msg_not_initialised), new_DatabaseManager no_indexedDB).
Proof.
  apply (without_indexedDB_reads_reject no_indexedDB VUndefined). reflexivity.
Defined.

Lemma rejected_add_leaves_the_database_witness :
  this (snd (addUser browser 0 (ready {[ 0%nat := alice ]})))
  = this (ready {[ 0%nat := alice ]}).
Proof.
  apply (proj1 (rejected_add_leaves_the_database browser 0
                  (ready {[ 0%nat := alice ]}) eq_refl)
           (DOMException "DataError")).
  by_evaluation.
Defined.

Lemma resolved_add_inserts_one_record_witness :
  added_one "users" (VNum 1) (ready two_alices) with_alice.
Proof.
  apply (proj1 (resolved_add_inserts_one_record browser 0 (ready two_alices) eq_refl)).
  by_evaluation.
Defined.

Lemma addActionCorrective_stores_the_record_as_given_witness :
  let w := ready {[ 0%nat := action_1 ]} in
  exists d' st' stored,
    db (this (snd (addActionCorrective browser 0 w))) = Some d' /\
    find_store d' "actions_correctives" = Some st' /\
    In (VNum 1, stored) (os_records st') /\
    stored !! os_keyPath st' = Some (VNum 1) /\
    (forall f, f <> os_keyPath st' -> stored !! f = action_1 !! f).
Proof.
  intros w.
  apply (addActionCorrective_stores_the_record_as_given browser 0 w
           (snd (addActionCorrective browser 0 w)) (VNum 1) eq_refl).
  by_evaluation.
Defined.

Lemma executeTransaction_missing_store_witness :
  executeTransaction browser ["archives"] readonly (fun _ => ret (VNum 1)) (ready ∅)
  = (Throw (DOMException "NotFoundError"),
     logged (ERROR "TRANSACTION_FAILED" (DOMException "NotFoundError")) (ready ∅)).
Proof.
  apply (executeTransaction_missing_store browser "archives" readonly
           (fun _ => ret (VNum 1)) (ready ∅) declared_db).
  - repeat split.
  - reflexivity.
Defined.


Lemma getUser_returns_a_stored_record_of_that_name_witness :
  let o := <["password" := VStr (hashPassword (js "secret"))]>
             (<["id" := VNum 1]> alice) in
  let w' := with_transaction ["users"] readonly with_alice in
  (exists k, In (k, o) (os_records (store_of with_alice "users"))) /\
  o !! "username" = Some (VStr (js "alice")) /\
  this w' = this with_alice /\ heap w' = heap with_alice.
Proof.
  intros o w'.
  apply (getUser_returns_a_stored_record_of_that_name browser with_alice w'
           (db_of with_alice) (store_of with_alice "users")
           {| ix_name := "username"; ix_keyPath := "username"; ix_unique := true |}
           (js "alice") o).
  - split_by_evaluation.
  - by_evaluation.
  - by_evaluation.
  - reflexivity.
  - by_evaluation.
Defined.

Lemma addUser_then_getUser_witness :
  exists o p,
    getUser browser (VStr (js "alice")) with_alice
    = (Return (Some o), with_transaction ["users"] readonly with_alice) /\
    get_prop (<["id" := VNum 1]> alice) "password" = VStr p /\
    o !! "password" = Some (VStr (hashPassword p)) /\
    o !! "username" = Some (VStr (js "alice")).
Proof.
  destruct (addUser_then_getUser browser (ready two_alices) with_alice declared_db
              (store_of (ready two_alices) "users") 0 (js "alice") (VNum 1))
    as (o & p & H1 & H2 & H3 & H4 & _).
  - split_by_evaluation.
  - by_evaluation.
  - exists {| ix_name := "username"; ix_keyPath := "username"; ix_unique := true |}.
    split_by_evaluation.
  - by_evaluation.
  - by_evaluation.
  - exists o, p. repeat split; assumption.
Defined.


(** ** The handle after an open *)

(** [createTables] leaves the manager as it was. *)
Lemma createTables_keeps_this (w : World) : this (snd (createTables w)) = this w.
Proof.
  unfold createTables. destruct (db (this w)) as [d|] eqn:Hd; [|reflexivity].
  unfold try_catch, bind, db_transaction at 1. rewrite Hd.
  unfold idb_transaction.
  destruct (upgrading d); [reflexivity|].
  destruct (closed d); [reflexivity|].
  destruct (negb _); reflexivity.
Qed.

Lemma handle_this (ev : OpenEvent) (p : promise_state) (w : World) :
  this (snd (handle ev p w))
  = match ev with
    | onerror _ => this w
    | onsuccess d => this (with_db d w)
    | onupgradeneeded d _ _ => this (with_db d w)
    end /\
  exists p', fst (handle ev p w) = Return p'.
Proof.
  destruct ev as [message|d|d o n];
    unfold handle, bind, set_db, logInfo, logError, print, ret; cbn [fst snd].
  - split; [reflexivity | eauto].
  - split; [reflexivity | eauto].
  - rewrite createTables_keeps_this. split; [reflexivity | eauto].
Qed.

Lemma handle_all_this (evs : list OpenEvent) (p : promise_state) (w : World) :
  let w' := snd (handle_all evs p w) in
  db (this w') = last_connection evs (db (this w)) /\
  initializationPromise (this w') = initializationPromise (this w) /\
  dbName (this w') = dbName (this w) /\ dbVersion (this w') = dbVersion (this w).
Proof.
  revert p w. induction evs as [|ev evs IH]; intros p w; [now repeat split|].
  destruct (handle_this ev p w) as [Ht [p' Hp']].
  assert (E : handle_all (ev :: evs) p w = handle_all evs p' (snd (handle ev p w))).
  { cbn [handle_all]. unfold bind. destruct (handle ev p w) as [o w1].
    cbn [fst] in Hp'. subst o. reflexivity. }
  cbn zeta. rewrite E.
  destruct (IH p' (snd (handle ev p w))) as (Id & Ip & In' & Iv).
  rewrite Id, Ip, In', Iv, Ht.
  destruct ev; now repeat split.
Qed.

(** X21. On a host that has IndexedDB, [initDatabase] leaves in [this.db]
    the connection of the last [success] or [upgradeneeded] event of the
    open request (the handle it had when there was none), and the
    initialisation promise set, whether the call rejects or stays pending:
    a handle assigned in [onupgradeneeded] is kept when the open then
    fails, and [getDatabaseStatus] reports [initialized: true]. *)
Theorem initDatabase_keeps_the_last_connection (host : Host) (w : World) :
  window_indexedDB host = true ->
  let w' := snd (initDatabase host w) in
  db (this w')
  = last_connection (indexedDB_open host (dbName (this w)) (dbVersion (this w)))
      (db (this w)) /\
  initializationPromise (this w') = true /\
  getDatabaseStatus w' !! "initialized"
  = Some (SBool (match last_connection
                         (indexedDB_open host (dbName (this w)) (dbVersion (this w)))
                         (db (this w)) with
                 | Some _ => true
                 | None => false
                 end)).
Proof.
  intros Hi w'.
  assert (H : db (this w')
              = last_connection
                  (indexedDB_open host (dbName (this w)) (dbVersion (this w)))
                  (db (this w))
              /\ initializationPromise (this w') = true).
  { subst w'. unfold initDatabase. rewrite try_catch_log, Hi. cbn [negb].
    match goal with
    | |- context [match ?m w with _ => _ end] => set (r := m w)
    end.
    assert (Er : db (this (snd r))
                 = last_connection
                     (indexedDB_open host (dbName (this w)) (dbVersion (this w)))
                     (db (this w))
                 /\ initializationPromise (this (snd r)) = true).
    { subst r. unfold bind, set_initializationPromise.
      match goal with
      | |- context [handle_all ?evs Unsettled ?w0] =>
          pose proof (handle_all_this evs Unsettled w0) as Hh;
          destruct (handle_all evs Unsettled w0) as [[p|e|] w1]
      end; cbn [snd this db initializationPromise] in Hh;
        destruct Hh as (Hd & Hp & _ & _); [|now split..].
      destruct p as [| |e]; [now split | | now split].
      rewrite createTables_keeps_this. now split. }
    destruct r as [[[]|e|] w1]; exact Er. }
  destruct H as [Hd Hp]. repeat split; [exact Hd | exact Hp |].
  unfold getDatabaseStatus. rewrite lookup_insert_eq, Hd. reflexivity.
Qed.

Lemma initDatabase_keeps_the_last_connection_witness :
  let w' := snd (initDatabase failing_upgrade (blank None false ∅)) in
  db (this w') = Some {| objectStores := []; upgrading := true; closed := false |} /\
  initializationPromise (this w') = true /\
  getDatabaseStatus w' !! "initialized" = Some (SBool true).
Proof.
  apply (initDatabase_keeps_the_last_connection failing_upgrade (blank None false ∅)).
  reflexivity.
Defined.

(** ** One error for all the violations *)

Lemma check_column_with_options (host : Host) (data : jsobj) (c : column) :
  (col_validation c = Some KEnum -> col_options c <> None) ->
  exists v, check_column host data c [] = inr v.
Proof.
  intros Hopt. unfold check_column.
  destruct (get_prop data (col_name c)); try (eexists; reflexivity);
    destruct (col_validation c) as [[]|]; cbn [typeof];
    try (eexists; reflexivity).
  all: try (destruct (Regex.test _ _); eexists; reflexivity).
  all: try (destruct (Date_parse_isNaN host _); eexists; reflexivity).
  all: destruct (col_options c) as [o|]; [|now specialize (Hopt eq_refl)];
    destruct (includes o _); eexists; reflexivity.
Qed.

(** X20. For a column list in which every column of the enum kind carries
    its [options], [validateData] never throws a [TypeError]: each column
    yields its list of violations, and the call either returns (no
    violation at all) or throws one [Error] whose message is
    "Validation échouée: " followed by all the violations of all the
    columns, in the order of the columns, joined by ", ". *)
Theorem validateData_gathers_every_violation (host : Host) (data : jsobj)
    (schema : list column) :
  Forall (fun c => col_validation c = Some KEnum -> col_options c <> None) schema ->
  exists violations,
    Forall2 (fun c v => check_column host data c [] = inr v) schema violations /\
    validateData host data schema
    = match concat violations with
      | [] => inr ()
      | e :: rest => inl (Error (msg_validation ++ join (js ", ") (e :: rest)))
      end.
Proof.
  intros Hs.
  assert (H : exists violations,
             Forall2 (fun c v => check_column host data c [] = inr v) schema violations).
  { induction Hs as [|c schema Hc _ [vs IH]].
    - exists []. constructor.
    - destruct (check_column_with_options host data c Hc) as [v Hv].
      exists (v :: vs). now constructor. }
  destruct H as [violations H]. exists violations. split; [exact H|].
  now apply validateData_collects_all.
Qed.

Lemma validateData_gathers_every_violation_witness :
  exists violations,
    Forall2 (fun c v => check_column browser (obj [("email", VStr (js "a@b"))]) c []
                        = inr v)
            addUser_schema violations /\
    validateData browser (obj [("email", VStr (js "a@b"))]) addUser_schema
    = match concat violations with
      | [] => inr ()
      | e :: rest => inl (Error (msg_validation ++ join (js ", ") (e :: rest)))
      end.
Proof.
  apply (validateData_gathers_every_violation browser
           (obj [("email", VStr (js "a@b"))]) addUser_schema).
  repeat constructor; discriminate.
Defined.

Example validateData_three_violations :
  validateData browser (obj [("email", VStr (js "a@b"))]) addUser_schema
  = inl (Error (msg_validation
                ++ js "username est requis, password est requis, email n'est pas un email valide")).
Proof. vm_compute. reflexivity. Qed.

(** ** Keys the store cannot use *)

Section Keys.

Variable host : Host.

(** X22. On a usable connection whose [users] store has its [username]
    index, [getUser] called with something that is neither a string nor a
    number ([undefined], [null], a boolean) rejects with the store's
    [DataError]; the failure is logged and nothing is written. *)
Theorem getUser_rejects_a_value_that_is_no_key (w : World) (d : IDBDatabase)
    (st : ObjectStore) (ix : Index) (username : jsval) :
  usable w d ->
  find_store d "users" = Some st ->
  find (fun i => String.eqb (ix_name i) "username") (os_indexes st) = Some ix ->
  is_valid_key username = false ->
  getUser host username w
  = (Throw (DOMException "DataError"),
     logged (ERROR "TRANSACTION_FAILED" (DOMException "DataError"))
       (with_transaction ["users"] readonly w)).
Proof.
  intros (Hd & Hp & Hu & Hc) Hst Hix Hk.
  assert (Ht : idb_transaction d ["users"] readonly = inr ()).
  { now apply (idb_transaction_usable _ _ _ st). }
  unfold getUser. rewrite (executeTransaction_ready _ _ _ _ _ _ Hd Hp Ht).
  unfold try_catch, objectStore, the_db, lift, bind, ret.
  cbn [this with_transaction tx_scope contains existsb String.eqb Ascii.eqb
       Bool.eqb orb].
  rewrite Hd, Hst. unfold idb_index_get. rewrite Hix, Hk. reflexivity.
Qed.

(** X23. On a usable connection whose [users] store has no key generator
    (what [createObjectStore(name, { keyPath: "id" })] gives), [addUser] of
    a valid record that has nothing at the key path rejects with the
    store's [DataError] and the database is left as it was: the caller has
    to supply the key. *)
Theorem addUser_without_key_is_refused (w : World) (d : IDBDatabase)
    (st : ObjectStore) (user : nat) :
  usable w d ->
  find_store d "users" = Some st ->
  os_autoIncrement st = false ->
  validateData host (object_at w user) addUser_schema = inr () ->
  object_at w user !! os_keyPath st = None ->
  exists w',
    addUser host user w = (Throw (DOMException "DataError"), w') /\
    this w' = this w.
Proof.
  intros (Hd & Hp & Hu & Hc) Hst Hauto Hv Hnone.
  destruct (addUser_schema_password host _ Hv) as (p & Hpw & _).
  assert (Hkp : os_keyPath st <> "password").
  { intros E. rewrite E in Hnone. unfold get_prop in Hpw. rewrite Hnone in Hpw.
    discriminate. }
  assert (Hadd : idb_add readwrite st
                   (<["password" := VStr (hashPassword p)]> (object_at w user))
                 = inl (DOMException "DataError")).
  { unfold idb_add, extract_key. rewrite lookup_insert_ne by congruence.
    rewrite Hnone, Hauto. reflexivity. }
  destruct (addUser_cases host user w Hp)
    as [(e0 & w0 & H0 & Ht & He)
       | (d0 & st0 & k & st' & p' & w0 & _ & Hpw' & Hd0 & Hst0 & Ha & _)].
  - specialize (He p d st Hv Hpw Hd Hu Hc Hst).
    assert (e0 = DOMException "DataError") by congruence. subst e0.
    exists w0. split; [exact H0 | exact Ht].
  - exfalso.
    assert (d0 = d) by congruence. subst d0.
    assert (st0 = st) by congruence. subst st0.
    assert (p' = p) by congruence. subst p'. congruence.
Qed.

End Keys.

Lemma getUser_rejects_a_value_that_is_no_key_witness :
  getUser browser VUndefined (ready ∅)
  = (Throw (DOMException "DataError"),
     logged (ERROR "TRANSACTION_FAILED" (DOMException "DataError"))
       (with_transaction ["users"] readonly (ready ∅))).
Proof.
  apply (getUser_rejects_a_value_that_is_no_key browser (ready ∅) declared_db
           (store_of (ready ∅) "users")
           {| ix_name := "username"; ix_keyPath := "username"; ix_unique := true |}).
  - split_by_evaluation.
  - by_evaluation.
  - by_evaluation.
  - reflexivity.
Defined.

Lemma addUser_without_key_is_refused_witness :
  exists w',
    addUser browser 0 (ready {[ 0%nat := alice ]})
    = (Throw (DOMException "DataError"), w') /\
    this w' = this (ready {[ 0%nat := alice ]}).
Proof.
  apply (addUser_without_key_is_refused browser (ready {[ 0%nat := alice ]})
           declared_db (store_of (ready ∅) "users") 0).
  - split_by_evaluation.
  - by_evaluation.
  - by_evaluation.
  - by_evaluation.
  - by_evaluation.
Defined.

(** ** The outcomes of [getUser] *)

Section GetUser.

Variable host : Host.

(** What the index answers: a missing index and a value that is no key are
    its only exceptions. *)
Lemma idb_index_get_exceptions (st : ObjectStore) (name : string) (k : jsval) (e : exn) :
  idb_index_get st name k = inl e ->
  (e = DOMException "NotFoundError" /\
   find (fun ix => String.eqb (ix_name ix) name) (os_indexes st) = None) \/
  (e = DOMException "DataError" /\ is_valid_key k = false).
Proof.
  unfold idb_index_get.
  destruct (find _ (os_indexes st)) as [ix|].
  - destruct (is_valid_key k); [discriminate|].
    intros E. injection E as <-. right. now split.
  - intros E. injection E as <-. left. now split.
Qed.

(** An index on [keyPath] finds nothing for a key that no record carries
    at [keyPath]. *)
Lemma idb_index_get_absent (st : ObjectStore) (ix : Index) (name : string) (k : jsval) :
  find (fun i => String.eqb (ix_name i) name) (os_indexes st) = Some ix ->
  is_valid_key k = true ->
  (forall key o, In (key, o) (os_records st) -> get_prop o (ix_keyPath ix) <> k) ->
  idb_index_get st name k = inr None.
Proof.
  intros Hix Hk Hnone. unfold idb_index_get. rewrite Hix, Hk.
  rewrite find_all_false; [reflexivity|].
  intros [key o] Hin. specialize (Hnone key o Hin). cbn [snd].
  unfold extract_key, get_prop in *.
  destruct (o !! ix_keyPath ix) as [v|]; [|reflexivity].
  destruct v; cbn [is_valid_key]; try reflexivity;
    unfold key_eqb; apply bool_decide_eq_false; congruence.
Qed.

(** A transaction on [users] is only created when the store is there. *)
Lemma idb_transaction_users_store (d : IDBDatabase) (m : mode) :
  idb_transaction d ["users"] m = inr () ->
  exists st, find_store d "users" = Some st.
Proof.
  unfold idb_transaction.
  destruct (upgrading d); [discriminate|].
  destruct (closed d); [discriminate|].
  cbn [forallb]. rewrite andb_true_r.
  destruct (find_store d "users") as [st|] eqn:Hst; [now exists st|].
  rewrite (find_store_None_contains _ _ Hst). discriminate.
Qed.

(** [getUser] once the transaction is created: the answer of the index. *)
Lemma getUser_in_transaction (w : World) (d : IDBDatabase) (st : ObjectStore)
    (username : jsval) :
  db (this w) = Some d ->
  initializationPromise (this w) = true ->
  idb_transaction d ["users"] readonly = inr () ->
  find_store d "users" = Some st ->
  getUser host username w
  = match idb_index_get st "username" username with
    | inl e => (Throw e, logged (ERROR "TRANSACTION_FAILED" e)
                           (with_transaction ["users"] readonly w))
    | inr r => (Return r, with_transaction ["users"] readonly w)
    end.
Proof.
  intros Hd Hp Ht Hst. unfold getUser.
  rewrite (executeTransaction_ready host _ _ _ _ _ Hd Hp Ht), try_catch_log.
  unfold objectStore, the_db, bind, lift. cbn [with_transaction this].
  rewrite Hd. cbn [tx_scope contains existsb String.eqb Ascii.eqb Bool.eqb orb].
  rewrite Hst. unfold ret.
  destruct (idb_index_get st "username" username) as [e|r]; reflexivity.
Qed.

(** C9, as amended. [getUser(username)] never throws because no record
    matched; what it does is settled before the records are looked at:
    - without a handle it rejects with the manager's own error, "Base de
      données non initialisée", and creates no transaction;
    - with a handle and no initialisation promise it runs [initDatabase]
      first and ends as [initDatabase] ends, rejected or never settled;
    - with a handle and the promise, an exception of [db.transaction] is
      logged and thrown again;
    - once the transaction is created, the [users] store is there and the
      call ends as the lookup in the [username] index ends: an exception
      of the lookup (there is no such index, or [username] is not a valid
      key) is logged and thrown again, a result is the result of the call;
    - on a connection that is neither upgrading nor closed, with the
      promise set and the [username] index on [users], a valid key that no
      record carries as its [username] resolves with [undefined]. *)
Theorem getUser_outcomes (username : jsval) (w : World) :
  (db (this w) = None ->
   getUser host username w = (Throw (Error msg_not_initialised), w)) /\
  (forall d, db (this w) = Some d -> initializationPromise (this w) = false ->
     let r := initDatabase host w in
     (exists e, fst r = Throw e /\ getUser host username w = (Throw e, snd r)) \/
     (fst r = Pending /\ getUser host username w = (Pending, snd r))) /\
  (forall d e, db (this w) = Some d -> initializationPromise (this w) = true ->
     idb_transaction d ["users"] readonly = inl e ->
     getUser host username w
     = (Throw e, logged (ERROR "TRANSACTION_FAILED" e) w)) /\
  (forall d, db (this w) = Some d -> initializationPromise (this w) = true ->
     idb_transaction d ["users"] readonly = inr () ->
     exists st,
       find_store d "users" = Some st /\
       getUser host username w
       = match idb_index_get st "username" username with
         | inl e => (Throw e, logged (ERROR "TRANSACTION_FAILED" e)
                                (with_transaction ["users"] readonly w))
         | inr r => (Return r, with_transaction ["users"] readonly w)
         end /\
       (forall e, idb_index_get st "username" username = inl e ->
          (e = DOMException "NotFoundError" /\
           find (fun ix => String.eqb (ix_name ix) "username") (os_indexes st) = None) \/
          (e = DOMException "DataError" /\ is_valid_key username = false))) /\
  (forall d st ix,
     usable w d ->
     find_store d "users" = Some st ->
     find (fun i => String.eqb (ix_name i) "username") (os_indexes st) = Some ix ->
     ix_keyPath ix = "username" ->
     is_valid_key username = true ->
     (forall k o, In (k, o) (os_records st) -> get_prop o "username" <> username) ->
     getUser host username w
     = (Return None, with_transaction ["users"] readonly w)).
Proof.
  split; [|split; [|split; [|split]]].
  - intros Hd. unfold getUser, executeTransaction. rewrite Hd. reflexivity.
  - intros d Hd Hp r. subst r.
    pose proof (initDatabase_not_Return host w) as Hnr.
    unfold getUser, executeTransaction. rewrite Hd, Hp. unfold bind.
    destruct (initDatabase host w) as [[[]|e|] w'] eqn:Hi; cbn [fst snd] in *.
    + congruence.
    + left. exists e. split; reflexivity.
    + right. split; reflexivity.
  - intros d e Hd Hp Ht. unfold getUser, executeTransaction. rewrite Hd, Hp.
    unfold bind at 1, ret at 1. rewrite try_catch_log.
    unfold bind at 1, db_transaction. rewrite Hd, Ht. reflexivity.
  - intros d Hd Hp Ht.
    destruct (idb_transaction_users_store _ _ Ht) as [st Hst].
    exists st. split; [exact Hst|]. split.
    + apply (getUser_in_transaction _ _ _ _ Hd Hp Ht Hst).
    + intros e. apply idb_index_get_exceptions.
  - intros d st ix (Hd & Hp & Hu & Hc) Hst Hix Hkp Hk Hnone.
    assert (Ht : idb_transaction d ["users"] readonly = inr ()).
    { apply (idb_transaction_usable _ _ _ _ Hu Hc Hst). discriminate. }
    rewrite (getUser_in_transaction _ _ _ _ Hd Hp Ht Hst).
    rewrite (idb_index_get_absent st ix); [reflexivity | exact Hix | exact Hk |].
    rewrite Hkp. exact Hnone.
Qed.

End GetUser.

(** C9, the wording of the specification. A manager as the constructor
    leaves it, before the open request has fired an event, holds no handle
    though its promise is set: [getUser] then rejects with the manager's
    own error. No transaction was created and no store was asked, so no
    store failed; the error is an [Error], not the [DOMException] a store
    raises; and the same call on the connected manager, whose [users]
    store has no record either, resolves with [undefined]. *)
Lemma getUser_rejects_without_a_store_failure :
  getUser browser (VStr (js "alice")) (blank None true ∅)
  = (Throw (Error msg_not_initialised), blank None true ∅) /\
  opened (blank None true ∅) = [] /\
  (forall name, Error msg_not_initialised <> DOMException name) /\
  os_records (store_of (ready ∅) "users") = [] /\
  getUser browser (VStr (js "alice")) (ready ∅)
  = (Return None, with_transaction ["users"] readonly (ready ∅)).
Proof.
  split; [by_evaluation|]. split; [reflexivity|]. split; [discriminate|].
  split; by_evaluation.
Qed.

Lemma getUser_outcomes_witness :
  getUser browser (VStr (js "alice")) with_bob
  = (Return None, with_transaction ["users"] readonly with_bob).
Proof.
  apply (proj2 (proj2 (proj2 (proj2
           (getUser_outcomes browser (VStr (js "alice")) with_bob))))
           (db_of with_bob) (store_of with_bob "users")
           {| ix_name := "username"; ix_keyPath := "username"; ix_unique := true |}).
  - split_by_evaluation.
  - by_evaluation.
  - by_evaluation.
  - reflexivity.
  - reflexivity.
  - intros k o Hin.
    assert (E : os_records (store_of with_bob "users")
                = [(VNum 1, obj [("id", VNum 1); ("username", VStr (js "bob"));
                                 ("password", VStr (hashPassword (js "x")))])])
      by by_evaluation.
    rewrite E in Hin. destruct Hin as [Hin|[]].
    injection Hin as <- <-. vm_compute. discriminate.
Defined.
